(** * PhysicsController: world lifecycle and resource ownership

    A shallow embedding of [gameplay/src/PhysicsController.cpp].  The
    controller owns a dynamics world and its four collaborating components,
    a registry of collision shapes and a registry of constraint wrappers.
    Objects created with [new] live in an explicit store indexed by
    addresses; [delete] takes them out of the store and is recorded in a
    trace, so that teardown order and ownership can be stated.

    Arithmetic on [float], [double] and [btScalar] is IEEE-754 binary32 and
    binary64 arithmetic with round-to-nearest-even, taken from the Standard
    Library's executable specification of floating-point numbers. *)

From Stdlib Require Import ZArith NArith List Lia.
From Stdlib Require Import Floats.SpecFloat.
From stdpp Require Import base option list gmap.

(** ** Scalars *)

Module Scalar.

(** C++ [float] (binary32) and [double] (binary64).  Both are carried by
    [spec_float]; the precision is fixed by the operation. *)
Definition float : Type := spec_float.
Definition double : Type := spec_float.

Definition prec32 : Z := 24.
Definition emax32 : Z := 128.
Definition prec64 : Z := 53.
Definition emax64 : Z := 1024.

(** Conversion of a finite value to a format: exact when the value is
    representable, rounded to nearest-even otherwise. *)
Definition convert (prec emax : Z) (v : spec_float) : spec_float :=
  match v with
  | S754_finite s m e => binary_normalize prec emax (cond_Zopp s (Zpos m)) e s
  | _ => v
  end.

Definition double_of_float (v : float) : double := convert prec64 emax64 v.
Definition float_of_double (v : double) : float := convert prec32 emax32 v.

(** [(float)n] for an integer [n]. *)
Definition float_of_long (n : Z) : float := binary_normalize prec32 emax32 n 0 false.
Definition double_of_long (n : Z) : double := binary_normalize prec64 emax64 n 0 false.

(** A decimal literal of type [double], given as the fraction [num / den]
    it denotes ([den] a power of ten) and correctly rounded. *)
Definition double_literal (num den : Z) : double :=
  SFdiv prec64 emax64 (double_of_long num) (double_of_long den).

Definition fmul (a b : float) : float := SFmul prec32 emax32 a b.
Definition fsub (a b : float) : float := SFsub prec32 emax32 a b.
Definition flt (a b : float) : bool := SFltb a b.
Definition fle (a b : float) : bool := SFleb a b.
Definition dmul (a b : double) : double := SFmul prec64 emax64 a b.
Definition dneg (a : double) : double := SFopp a.

(** Modelled from the spec: the overload that the unqualified call [abs(...)]
    in [getBox] resolves to is fixed by headers outside src/ (Base.h); the
    spec's [|max.axis - min.axis|] on a [float] difference is taken, that
    is, the floating-point absolute value. *)
Definition abs (a : float) : float := SFabs a.

Definition is_nan (v : spec_float) : bool :=
  match v with S754_nan => true | _ => false end.

(** The rational value [n / d] of a finite number, as a pair of a numerator
    and a positive denominator (not reduced); zero for the other classes. *)
Definition to_frac (v : spec_float) : Z * Z :=
  match v with
  | S754_finite s m e =>
      if (0 <=? e)%Z then (cond_Zopp s (Zpos m) * 2 ^ e, 1)%Z
      else (cond_Zopp s (Zpos m), 2 ^ (- e))%Z
  | _ => (0, 1)%Z
  end.

(** The literals of the source file. *)
Definition lit_0_0 : double := double_literal 0 1.
Definition lit_9_8 : double := double_literal 98 10.
Definition lit_0_001 : double := double_literal 1 1000.
Definition lit_0_5 : double := double_literal 5 10.

End Scalar.
Import Scalar.

(** [btScalar] is the engine's scalar type, single precision in the engine's
    default configuration. *)
Definition btScalar : Type := float.

(** [btScalar(d)] for a [double] expression [d]. *)
Definition btScalar_of (d : double) : btScalar := float_of_double d.

(** ** Vectors and quaternions *)

(** [gameplay::Vector3], with public members [x], [y], [z]. *)
Module Vector3.
Record t : Type := mk { x : float; y : float; z : float }.
End Vector3.

(** [gameplay::Quaternion]. *)
Module Quaternion.
Record t : Type := mk { x : float; y : float; z : float; w : float }.
End Quaternion.

(** The engine's [btVector3], read through [x()], [y()], [z()] and written
    through [setX], [setY], [setZ]. *)
Module btVector3.
Record t : Type := mk { x : btScalar; y : btScalar; z : btScalar }.
Definition setX (v : btScalar) (b : t) : t := mk v (y b) (z b).
Definition setY (v : btScalar) (b : t) : t := mk (x b) v (z b).
Definition setZ (v : btScalar) (b : t) : t := mk (x b) (y b) v.
End btVector3.

(** The [btVector3] that [setGravity] stores for its [Vector3] argument,
    component by component. *)
Definition stored (v : Vector3.t) : btVector3.t :=
  btVector3.mk (Vector3.x v) (Vector3.y v) (Vector3.z v).

(** ** Addresses *)

Definition addr : Type := N.
Definition NULL : addr := 0%N.

Definition is_null (p : addr) : bool := N.eqb p NULL.

(** ** The dynamics engine *)

(** The rigid-body engine is an external collaborator: how it integrates
    motion is opaque here.  What the controller relies on is collected in an
    interface. *)
Class Engine : Type := {
  (** the engine's private simulation state *)
  Dynamics : Type;
  (** the simulation state of a newly created world *)
  dynamics_init : Dynamics;
  (** the gravity of a newly created world, before any [setGravity] *)
  gravity_init : btVector3.t;
  (** the number of fixed sub-steps needed to cover a time step *)
  subStepsRequired : Dynamics -> btScalar -> nat;
  (** integrate a time step using the given number of sub-steps *)
  advance : btVector3.t -> btScalar -> nat -> Dynamics -> Dynamics
}.

(** ** Constraints *)

(** The five constraint variants with the arguments each is built from: two
    bodies and the per-side offsets. *)
Inductive TypedConstraint : Type :=
| Fixed (a : addr) (rotationOffsetA : Quaternion.t) (translationOffsetA : Vector3.t)
        (b : addr) (rotationOffsetB : Quaternion.t) (translationOffsetB : Vector3.t)
| Generic (a : addr) (rotationOffsetA : Quaternion.t) (translationOffsetA : Vector3.t)
          (b : addr) (rotationOffsetB : Quaternion.t) (translationOffsetB : Vector3.t)
| Hinge (a : addr) (rotationOffsetA : Quaternion.t) (translationOffsetA : Vector3.t)
        (b : addr) (rotationOffsetB : Quaternion.t) (translationOffsetB : Vector3.t)
| Socket (a : addr) (translationOffsetA : Vector3.t)
         (b : addr) (translationOffsetB : Vector3.t)
| Spring (a : addr) (rotationOffsetA : Quaternion.t) (translationOffsetA : Vector3.t)
         (b : addr) (rotationOffsetB : Quaternion.t) (translationOffsetB : Vector3.t).

(** [PhysicsConstraint]: the controller-level wrapper.  [_constraint] points
    to the native constraint that the world works with. *)
Record PhysicsConstraint : Type := {
  typed : TypedConstraint;
  _constraint : addr
}.

(** ** Outcomes *)

(** Undefined behaviour of the C++ program, made explicit. *)
Inductive fault : Type :=
| NullPointerDereference
| InvalidPointer (p : addr)
| IndexOutOfRange (i : nat).

Inductive result (A : Type) : Type :=
| Ok (a : A)
| Fault (f : fault).
Arguments Ok {A} a.
Arguments Fault {A} f.

(** ** The world *)

Section WithEngine.
Context `{E : Engine}.

(** [btDiscreteDynamicsWorld].  The constraint and collision-object arrays
    hold addresses in the order in which they were added.  [m_subSteps]
    counts the sub-steps performed so far. *)
Record World : Type := {
  m_dispatcher : addr;
  m_pairCache : addr;
  m_constraintSolver : addr;
  m_collisionConfiguration : addr;
  m_gravity : btVector3.t;
  m_constraints : list addr;
  m_collisionObjects : list addr;
  m_dynamics : Dynamics;
  m_subSteps : nat
}.

Definition World_new (dispatcher pairCache solver config : addr) : World :=
  {| m_dispatcher := dispatcher; m_pairCache := pairCache;
     m_constraintSolver := solver; m_collisionConfiguration := config;
     m_gravity := gravity_init; m_constraints := []; m_collisionObjects := [];
     m_dynamics := dynamics_init; m_subSteps := 0 |}.

Definition World_setGravity (g : btVector3.t) (w : World) : World :=
  {| m_dispatcher := m_dispatcher w; m_pairCache := m_pairCache w;
     m_constraintSolver := m_constraintSolver w;
     m_collisionConfiguration := m_collisionConfiguration w;
     m_gravity := g; m_constraints := m_constraints w;
     m_collisionObjects := m_collisionObjects w;
     m_dynamics := m_dynamics w; m_subSteps := m_subSteps w |}.

Definition World_setConstraints (cs : list addr) (w : World) : World :=
  {| m_dispatcher := m_dispatcher w; m_pairCache := m_pairCache w;
     m_constraintSolver := m_constraintSolver w;
     m_collisionConfiguration := m_collisionConfiguration w;
     m_gravity := m_gravity w; m_constraints := cs;
     m_collisionObjects := m_collisionObjects w;
     m_dynamics := m_dynamics w; m_subSteps := m_subSteps w |}.

Definition World_setCollisionObjects (os : list addr) (w : World) : World :=
  {| m_dispatcher := m_dispatcher w; m_pairCache := m_pairCache w;
     m_constraintSolver := m_constraintSolver w;
     m_collisionConfiguration := m_collisionConfiguration w;
     m_gravity := m_gravity w; m_constraints := m_constraints w;
     m_collisionObjects := os;
     m_dynamics := m_dynamics w; m_subSteps := m_subSteps w |}.

(** Modelled from the spec: the engine's arrays are outside src/.  Removing
    an element takes it out of the array and changes nothing when it is not
    there; as in the engine, the first slot holding the element is filled
    with the last element and the array shrinks by one. *)
Fixpoint findLinearSearch (key : addr) (l : list addr) : nat :=
  match l with
  | [] => 0
  | p :: l' => if N.eqb p key then 0 else S (findLinearSearch key l')
  end.

Definition array_remove (key : addr) (l : list addr) : list addr :=
  let i := findLinearSearch key l in
  if Nat.ltb i (length l) then
    match last l with
    | Some z => removelast (<[i := z]> l)
    | None => l
    end
  else l.

(** Modelled from the spec: [btDiscreteDynamicsWorld::addConstraint] is engine
    code outside src/; it attaches the native constraint to the world, the
    world's constraints being kept in the order they were added. *)
Definition World_addConstraint (c : addr) (w : World) : World :=
  World_setConstraints (m_constraints w ++ [c]) w.

(** Modelled from the spec: [removeConstraint] (engine code outside src/)
    takes the constraint out of the world's constraints. *)
Definition World_removeConstraint (c : addr) (w : World) : World :=
  World_setConstraints (array_remove c (m_constraints w)) w.

(** Modelled from the spec: [removeCollisionObject] (engine code outside
    src/) takes the object out of the world's collision objects. *)
Definition World_removeCollisionObject (o : addr) (w : World) : World :=
  World_setCollisionObjects (array_remove o (m_collisionObjects w)) w.

(** Modelled from the spec: [stepSimulation(timeStep, maxSubSteps)] (engine
    code outside src/) advances the world by [timeStep] seconds in discrete
    sub-steps, performing the number required but never more than
    [maxSubSteps]. *)
Definition World_stepSimulation (timeStep : btScalar) (maxSubSteps : Z) (w : World) : World :=
  let n := Nat.min (subStepsRequired (m_dynamics w) timeStep) (Z.to_nat maxSubSteps) in
  {| m_dispatcher := m_dispatcher w; m_pairCache := m_pairCache w;
     m_constraintSolver := m_constraintSolver w;
     m_collisionConfiguration := m_collisionConfiguration w;
     m_gravity := m_gravity w; m_constraints := m_constraints w;
     m_collisionObjects := m_collisionObjects w;
     m_dynamics := advance (m_gravity w) timeStep n (m_dynamics w);
     m_subSteps := m_subSteps w + n |}.

(** ** The object store *)

Inductive Object : Type :=
| ObjCollisionConfiguration
| ObjDispatcher (config : addr)
| ObjBroadphase
| ObjSolver
| ObjWorld (w : World)
| ObjBoxShape (halfExtents : btVector3.t)
| ObjSphereShape (radius : btScalar)
| ObjTypedConstraint (c : TypedConstraint)
| ObjPhysicsConstraint (c : PhysicsConstraint)
| ObjCollisionObject (isRigidBody : bool) (motionState : addr)
| ObjMotionState.

(** What teardown does, in order. *)
Inductive event : Type :=
| Detach (constraint : addr)      (* removeConstraint *)
| Unlink (object : addr)          (* removeCollisionObject *)
| Destroy (p : addr).             (* delete *)

(** ** The controller *)

Record PhysicsController : Type := {
  _gravity : btVector3.t;
  _collisionConfiguration : addr;
  _dispatcher : addr;
  _overlappingPairCache : addr;
  _solver : addr;
  _world : addr;
  _shapes : list addr;
  _constraints : list addr
}.

(** The program state: the store, the next address [new] hands out, the
    trace of teardown events, and the controller itself. *)
Record State : Type := {
  heap : gmap addr Object;
  next : addr;
  trace : list event;
  self : PhysicsController
}.

Definition M (A : Type) : Type := State -> result (A * State).

Definition ret {A} (a : A) : M A := fun s => Ok (a, s).
Definition bind {A B} (c : M A) (k : A -> M B) : M B :=
  fun s => match c s with
           | Ok (a, s') => k a s'
           | Fault f => Fault f
           end.
Definition throw {A} (f : fault) : M A := fun _ => Fault f.

End WithEngine.

Declare Scope ctl_scope.
Delimit Scope ctl_scope with ctl.
Notation "'let*' x ':=' c 'in' k" := (bind c (fun x => k))
  (at level 10, x name, c at level 100, k at level 200) : ctl_scope.
Notation "c ';;' k" := (bind c (fun _ => k))
  (at level 100, k at level 200, right associativity) : ctl_scope.
Open Scope ctl_scope.

Section Controller.
Context `{E : Engine}.

(** *** Field access *)

Definition this : M PhysicsController := fun s => Ok (self s, s).

Definition assign (f : PhysicsController -> PhysicsController) : M unit :=
  fun s => Ok (tt, {| heap := heap s; next := next s; trace := trace s; self := f (self s) |}).

Definition set__gravity (g : btVector3.t) (c : PhysicsController) : PhysicsController :=
  {| _gravity := g; _collisionConfiguration := _collisionConfiguration c;
     _dispatcher := _dispatcher c; _overlappingPairCache := _overlappingPairCache c;
     _solver := _solver c; _world := _world c; _shapes := _shapes c;
     _constraints := _constraints c |}.
Definition set__collisionConfiguration (p : addr) (c : PhysicsController) : PhysicsController :=
  {| _gravity := _gravity c; _collisionConfiguration := p;
     _dispatcher := _dispatcher c; _overlappingPairCache := _overlappingPairCache c;
     _solver := _solver c; _world := _world c; _shapes := _shapes c;
     _constraints := _constraints c |}.
Definition set__dispatcher (p : addr) (c : PhysicsController) : PhysicsController :=
  {| _gravity := _gravity c; _collisionConfiguration := _collisionConfiguration c;
     _dispatcher := p; _overlappingPairCache := _overlappingPairCache c;
     _solver := _solver c; _world := _world c; _shapes := _shapes c;
     _constraints := _constraints c |}.
Definition set__overlappingPairCache (p : addr) (c : PhysicsController) : PhysicsController :=
  {| _gravity := _gravity c; _collisionConfiguration := _collisionConfiguration c;
     _dispatcher := _dispatcher c; _overlappingPairCache := p;
     _solver := _solver c; _world := _world c; _shapes := _shapes c;
     _constraints := _constraints c |}.
Definition set__solver (p : addr) (c : PhysicsController) : PhysicsController :=
  {| _gravity := _gravity c; _collisionConfiguration := _collisionConfiguration c;
     _dispatcher := _dispatcher c; _overlappingPairCache := _overlappingPairCache c;
     _solver := p; _world := _world c; _shapes := _shapes c;
     _constraints := _constraints c |}.
Definition set__world (p : addr) (c : PhysicsController) : PhysicsController :=
  {| _gravity := _gravity c; _collisionConfiguration := _collisionConfiguration c;
     _dispatcher := _dispatcher c; _overlappingPairCache := _overlappingPairCache c;
     _solver := _solver c; _world := p; _shapes := _shapes c;
     _constraints := _constraints c |}.
Definition set__shapes (l : list addr) (c : PhysicsController) : PhysicsController :=
  {| _gravity := _gravity c; _collisionConfiguration := _collisionConfiguration c;
     _dispatcher := _dispatcher c; _overlappingPairCache := _overlappingPairCache c;
     _solver := _solver c; _world := _world c; _shapes := l;
     _constraints := _constraints c |}.
Definition set__constraints (l : list addr) (c : PhysicsController) : PhysicsController :=
  {| _gravity := _gravity c; _collisionConfiguration := _collisionConfiguration c;
     _dispatcher := _dispatcher c; _overlappingPairCache := _overlappingPairCache c;
     _solver := _solver c; _world := _world c; _shapes := _shapes c;
     _constraints := l |}.

(** *** [new] and [delete] *)

(** [new T(...)]: the object is placed at a fresh address. *)
Definition new (o : Object) : M addr :=
  fun s => Ok (next s, {| heap := <[next s := o]> (heap s); next := N.succ (next s);
                          trace := trace s; self := self s |}).

(** [delete p]: nothing for a null pointer; the object is destroyed when [p]
    points to one; anything else is undefined.  The destructors of the
    engine's classes are outside src/: each destroys its own object and
    nothing that the controller deletes itself. *)
Definition delete (p : addr) : M unit :=
  fun s =>
    if is_null p then Ok (tt, s)
    else match heap s !! p with
         | Some _ => Ok (tt, {| heap := base.delete p (heap s); next := next s;
                                trace := trace s ++ [Destroy p]; self := self s |})
         | None => Fault (InvalidPointer p)
         end.

Definition emit (e : event) : M unit :=
  fun s => Ok (tt, {| heap := heap s; next := next s; trace := trace s ++ [e]; self := self s |}).

(** *** Access through pointers *)

Definition load (p : addr) : M Object :=
  fun s =>
    if is_null p then Fault NullPointerDereference
    else match heap s !! p with
         | Some o => Ok (o, s)
         | None => Fault (InvalidPointer p)
         end.

Definition store (p : addr) (o : Object) : M unit :=
  fun s => Ok (tt, {| heap := <[p := o]> (heap s); next := next s;
                      trace := trace s; self := self s |}).

(** [_world->...]: read the world behind [_world]. *)
Definition world : M World :=
  let* c := this in
  let* o := load (_world c) in
  match o with
  | ObjWorld w => ret w
  | _ => throw (InvalidPointer (_world c))
  end.

(** [_world->f(...)] for a method [f] that changes the world. *)
Definition world_call (f : World -> World) : M unit :=
  let* c := this in
  let* w := world in
  store (_world c) (ObjWorld (f w)).

(** [a[i]] on an array. *)
Definition at_index (l : list addr) (i : nat) : M addr :=
  match l !! i with
  | Some p => ret p
  | None => throw (IndexOutOfRange i)
  end.

(** *** Loops *)

(** [for (int i = n - 1; i >= 0; i--) body(i)] *)
Fixpoint for_down (n : nat) (body : nat -> M unit) : M unit :=
  match n with
  | O => ret tt
  | S i => body i ;; for_down i body
  end.

(** [for (i = from; i < from + n; i++) body(i)].  The source tests [i]
    against the size of a vector on every round; no loop body changes that
    size, so the bound is taken once. *)
Fixpoint for_up (n : nat) (from : nat) (body : nat -> M unit) : M unit :=
  match n with
  | O => ret tt
  | S n' => body from ;; for_up n' (S from) body
  end.

(** *** Calls into the world *)

Definition world_addConstraint (c : addr) : M unit :=
  world_call (World_addConstraint c).

Definition world_removeConstraint (c : addr) : M unit :=
  world_call (World_removeConstraint c) ;; emit (Detach c).

Definition world_removeCollisionObject (o : addr) : M unit :=
  world_call (World_removeCollisionObject o) ;; emit (Unlink o).

(** ** The operations of [PhysicsController.cpp] *)

(** The constructor: default gravity is 9.8 along the negative Y axis, every
    owning pointer is null and both registries are empty. *)
Definition PhysicsController_new : PhysicsController :=
  {| _gravity := btVector3.mk (btScalar_of lit_0_0) (btScalar_of (dneg lit_9_8))
                              (btScalar_of lit_0_0);
     _collisionConfiguration := NULL; _dispatcher := NULL;
     _overlappingPairCache := NULL; _solver := NULL; _world := NULL;
     _shapes := []; _constraints := [] |}.

(** The program state right after the controller has been constructed. *)
Definition State_new : State :=
  {| heap := ∅; next := 1%N; trace := []; self := PhysicsController_new |}.

Definition setGravity (gravity : Vector3.t) : M unit :=
  assign (fun c => set__gravity (btVector3.setX (Vector3.x gravity) (_gravity c)) c) ;;
  assign (fun c => set__gravity (btVector3.setY (Vector3.y gravity) (_gravity c)) c) ;;
  assign (fun c => set__gravity (btVector3.setZ (Vector3.z gravity) (_gravity c)) c) ;;
  let* c := this in
  if is_null (_world c) then ret tt
  else world_call (World_setGravity (_gravity c)).

(** Modelled from the spec: the constructors of the five constraint classes
    are outside src/.  Each builds the typed constraint from the two bodies
    and their per-side offsets: a native constraint for the world, and the
    wrapper that points to it. *)
Definition PhysicsConstraint_new (t : TypedConstraint) : M addr :=
  let* native := new (ObjTypedConstraint t) in
  new (ObjPhysicsConstraint {| typed := t; _constraint := native |}).

Definition addConstraint (constraint : addr) : M unit :=
  let* o := load constraint in
  match o with
  | ObjPhysicsConstraint pc =>
      world_addConstraint (_constraint pc) ;;
      assign (fun c => set__constraints (_constraints c ++ [constraint]) c)
  | _ => throw (InvalidPointer constraint)
  end.

Definition createFixedConstraint (a : addr) (rotationOffsetA : Quaternion.t)
    (translationOffsetA : Vector3.t) (b : addr) (rotationOffsetB : Quaternion.t)
    (translationOffsetB : Vector3.t) : M addr :=
  let* constraint := PhysicsConstraint_new
    (Fixed a rotationOffsetA translationOffsetA b rotationOffsetB translationOffsetB) in
  addConstraint constraint ;;
  ret constraint.

Definition createGenericConstraint (a : addr) (rotationOffsetA : Quaternion.t)
    (translationOffsetA : Vector3.t) (b : addr) (rotationOffsetB : Quaternion.t)
    (translationOffsetB : Vector3.t) : M addr :=
  let* constraint := PhysicsConstraint_new
    (Generic a rotationOffsetA translationOffsetA b rotationOffsetB translationOffsetB) in
  addConstraint constraint ;;
  ret constraint.

Definition createHingeConstraint (a : addr) (rotationOffsetA : Quaternion.t)
    (translationOffsetA : Vector3.t) (b : addr) (rotationOffsetB : Quaternion.t)
    (translationOffsetB : Vector3.t) : M addr :=
  let* constraint := PhysicsConstraint_new
    (Hinge a rotationOffsetA translationOffsetA b rotationOffsetB translationOffsetB) in
  addConstraint constraint ;;
  ret constraint.

Definition createSocketConstraint (a : addr) (translationOffsetA : Vector3.t)
    (b : addr) (translationOffsetB : Vector3.t) : M addr :=
  let* constraint := PhysicsConstraint_new
    (Socket a translationOffsetA b translationOffsetB) in
  addConstraint constraint ;;
  ret constraint.

Definition createSpringConstraint (a : addr) (rotationOffsetA : Quaternion.t)
    (translationOffsetA : Vector3.t) (b : addr) (rotationOffsetB : Quaternion.t)
    (translationOffsetB : Vector3.t) : M addr :=
  let* constraint := PhysicsConstraint_new
    (Spring a rotationOffsetA translationOffsetA b rotationOffsetB translationOffsetB) in
  addConstraint constraint ;;
  ret constraint.

Definition initialize : M unit :=
  let* p := new ObjCollisionConfiguration in
  assign (set__collisionConfiguration p) ;;
  let* c := this in
  let* p := new (ObjDispatcher (_collisionConfiguration c)) in
  assign (set__dispatcher p) ;;
  let* p := new ObjBroadphase in
  assign (set__overlappingPairCache p) ;;
  let* p := new ObjSolver in
  assign (set__solver p) ;;
  (* Create the world. *)
  let* c := this in
  let* p := new (ObjWorld (World_new (_dispatcher c) (_overlappingPairCache c)
                                     (_solver c) (_collisionConfiguration c))) in
  assign (set__world p) ;;
  let* c := this in
  world_call (World_setGravity (_gravity c)).

(** The four loops of [finalize], each with its body. *)

Definition remove_and_delete_constraint (i : nat) : M unit :=
  let* w := world in
  let* constraint := at_index (m_constraints w) i in
  world_removeConstraint constraint ;;
  delete constraint.

(* Remove the constraints from the world and delete them. *)
Definition finalize_world_constraints : M unit :=
  let* w := world in
  for_down (length (m_constraints w)) remove_and_delete_constraint.

(** Modelled from the spec: the destructor of a constraint wrapper is
    outside src/; it destroys the wrapper only, the native half having been
    destroyed by the first loop. *)
Definition delete_constraint_at (i : nat) : M unit :=
  let* c := this in
  let* p := at_index (_constraints c) i in
  delete p.

(* Delete the GamePlay physics constraint objects. *)
Definition finalize_constraints : M unit :=
  let* c := this in
  for_up (length (_constraints c)) 0 delete_constraint_at.

Definition remove_and_delete_object (i : nat) : M unit :=
  let* w := world in
  let* obj := at_index (m_collisionObjects w) i in
  let* o := load obj in
  match o with
  | ObjCollisionObject isRigidBody motionState =>
      (if isRigidBody && negb (is_null motionState)
       then delete motionState else ret tt) ;;
      world_removeCollisionObject obj ;;
      delete obj
  | _ => throw (InvalidPointer obj)
  end.

(* Remove the rigid bodies from the world and delete them. *)
Definition finalize_collision_objects : M unit :=
  let* w := world in
  for_down (length (m_collisionObjects w)) remove_and_delete_object.

Definition delete_shape_at (i : nat) : M unit :=
  let* c := this in
  let* shape := at_index (_shapes c) i in
  assign (fun c => set__shapes (<[i := NULL]> (_shapes c)) c) ;;
  delete shape.

(* Delete all of the collision shapes. *)
Definition finalize_shapes : M unit :=
  let* c := this in
  for_up (length (_shapes c)) 0 delete_shape_at ;;
  assign (set__shapes []).

Definition finalize : M unit :=
  finalize_world_constraints ;;
  finalize_constraints ;;
  finalize_collision_objects ;;
  finalize_shapes ;;
  (* Clean up the world and its various components. *)
  let* c := this in
  delete (_world c) ;;
  assign (set__world NULL) ;;
  let* c := this in
  delete (_solver c) ;;
  assign (set__solver NULL) ;;
  let* c := this in
  delete (_overlappingPairCache c) ;;
  assign (set__overlappingPairCache NULL) ;;
  let* c := this in
  delete (_dispatcher c) ;;
  assign (set__dispatcher NULL) ;;
  let* c := this in
  delete (_collisionConfiguration c) ;;
  assign (set__collisionConfiguration NULL).

Definition pause : M unit := ret tt.

Definition resume : M unit := ret tt.

(** [(float)elapsedTime * 0.001], passed as a [btScalar]. *)
Definition seconds (elapsedTime : Z) : btScalar :=
  btScalar_of (dmul (double_of_float (float_of_long elapsedTime)) lit_0_001).

Definition update (elapsedTime : Z) : M unit :=
  world_call (World_stepSimulation (seconds elapsedTime) 10).

(** [scale * 0.5 * abs(max - min)] on one axis, passed as a [btScalar]. *)
Definition halfExtent (scale : btScalar) (max min : float) : btScalar :=
  btScalar_of (dmul (dmul (double_of_float scale) lit_0_5)
                    (double_of_float (abs (fsub max min)))).

Definition getBox (min max : Vector3.t) (scale : btVector3.t) : M addr :=
  let halfExtents :=
    btVector3.mk (halfExtent (btVector3.x scale) (Vector3.x max) (Vector3.x min))
                 (halfExtent (btVector3.y scale) (Vector3.y max) (Vector3.y min))
                 (halfExtent (btVector3.z scale) (Vector3.z max) (Vector3.z min)) in
  let* box := new (ObjBoxShape halfExtents) in
  assign (fun c => set__shapes (_shapes c ++ [box]) c) ;;
  ret box.

(** The largest dimension of the scale, as [getSphere] picks it. *)
Definition uniformScale (scale : btVector3.t) : float :=
  let uniformScale := btVector3.x scale in
  let uniformScale :=
    if flt uniformScale (btVector3.y scale) then btVector3.y scale else uniformScale in
  let uniformScale :=
    if flt uniformScale (btVector3.z scale) then btVector3.z scale else uniformScale in
  uniformScale.

Definition getSphere (radius : float) (scale : btVector3.t) : M addr :=
  let* sphere := new (ObjSphereShape (fmul (uniformScale scale) radius)) in
  assign (fun c => set__shapes (_shapes c ++ [sphere]) c) ;;
  ret sphere.

Definition getTriangleMesh {IndexFormat : Type} (vertexData : addr)
    (vertexPositionStride : Z) (indexData : addr) (indexFormat : IndexFormat) : M addr :=
  ret NULL.

Definition getHeightfield (data : addr) (width height : Z) : M addr :=
  ret NULL.

End Controller.

(** ** A stand-in engine

    To run the model an engine is needed.  This one uses a fixed sub-step of
    1/60 s, asks for as many sub-steps as cover the time step, and keeps the
    list of the advances it was asked to make. *)

Definition stub_subStepsRequired (timeStep : btScalar) : nat :=
  let '(n, d) := to_frac timeStep in
  Z.to_nat ((n * 60 + d - 1) / d).

Definition stub_engine : Engine :=
  {| Dynamics := list (btVector3.t * btScalar * nat);
     dynamics_init := [];
     gravity_init := btVector3.mk (S754_zero false) (S754_zero false) (S754_zero false);
     subStepsRequired := fun _ timeStep => stub_subStepsRequired timeStep;
     advance := fun g timeStep n d => d ++ [(g, timeStep, n)] |}.

(** ** Ownership

    What [finalize] has to tear down, and when a state is fit for it. *)

Section Ownership.
Context `{E : Engine}.

(** Destroy the objects at the given addresses. *)
Definition free_all (ps : list addr) (h : gmap addr Object) : gmap addr Object :=
  foldl (fun h p => base.delete p h) h ps.

(** The motion state that teardown destroys along with a collision object:
    the one of a rigid body that has one. *)
Definition motion_state (h : gmap addr Object) (o : addr) : list addr :=
  match h !! o with
  | Some (ObjCollisionObject true m) => if is_null m then [] else [m]
  | _ => []
  end.

(** A collision object together with that motion state, which goes first. *)
Definition body_resources (h : gmap addr Object) (o : addr) : list addr :=
  motion_state h o ++ [o].

(** Everything the controller answers for, in the order of teardown. *)
Definition owned (s : State) (w : World) : list addr :=
  reverse (m_constraints w)
  ++ _constraints (self s)
  ++ flat_map (body_resources (heap s)) (reverse (m_collisionObjects w))
  ++ _shapes (self s)
  ++ [_world (self s); _solver (self s); _overlappingPairCache (self s);
      _dispatcher (self s); _collisionConfiguration (self s)].

(** A live world [w] sits behind [_world]; every owned address is non-null,
    points to an object, and is owned once; the world's collision objects are
    collision objects; addresses not yet handed out are unused. *)
Record wf (s : State) (w : World) : Prop := {
  wf_world : heap s !! _world (self s) = Some (ObjWorld w);
  wf_nodup : NoDup (owned s w);
  wf_live : ∀ p, p ∈ owned s w -> p ≠ NULL ∧ is_Some (heap s !! p);
  wf_objects : ∀ o, o ∈ m_collisionObjects w ->
      ∃ rb m, heap s !! o = Some (ObjCollisionObject rb m);
  wf_fresh : ∀ p, is_Some (heap s !! p) -> (0 < p < next s)%N
}.

(** Nothing is left unowned: every object in the store is owned. *)
Definition tight (s : State) (w : World) : Prop :=
  ∀ p, is_Some (heap s !! p) -> p ∈ owned s w.

(** The events of tearing down one collision object. *)
Definition body_events (h : gmap addr Object) (o : addr) : list event :=
  map Destroy (motion_state h o) ++ [Unlink o; Destroy o].

(** The events of a whole teardown. *)
Definition teardown (s : State) (w : World) : list event :=
  flat_map (fun c => [Detach c; Destroy c]) (reverse (m_constraints w))
  ++ map Destroy (_constraints (self s))
  ++ flat_map (body_events (heap s)) (reverse (m_collisionObjects w))
  ++ map Destroy (_shapes (self s))
  ++ map Destroy [_world (self s); _solver (self s); _overlappingPairCache (self s);
                  _dispatcher (self s); _collisionConfiguration (self s)].

(** The controller after [finalize]. *)
Definition finalized (c : PhysicsController) : PhysicsController :=
  {| _gravity := _gravity c; _collisionConfiguration := NULL; _dispatcher := NULL;
     _overlappingPairCache := NULL; _solver := NULL; _world := NULL;
     _shapes := []; _constraints := _constraints c |}.

(** Addresses are handed out in increasing order, starting above null. *)
Definition fresh (s : State) : Prop :=
  (0 < next s)%N ∧ ∀ p, is_Some (heap s !! p) -> (0 < p < next s)%N.

(** A controller without a world whose registries hold live objects, as it is
    before [initialize]. *)
Definition idle (s : State) : Prop :=
  fresh s
  ∧ NoDup (_constraints (self s) ++ _shapes (self s))
  ∧ ∀ p, p ∈ _constraints (self s) ++ _shapes (self s) ->
         p ≠ NULL ∧ is_Some (heap s !! p).

(** *** Sessions *)

(** The creation operation for a typed constraint. *)
Definition create (t : TypedConstraint) : M addr :=
  match t with
  | Fixed a ra ta b rb tb => createFixedConstraint a ra ta b rb tb
  | Generic a ra ta b rb tb => createGenericConstraint a ra ta b rb tb
  | Hinge a ra ta b rb tb => createHingeConstraint a ra ta b rb tb
  | Socket a ta b tb => createSocketConstraint a ta b tb
  | Spring a ra ta b rb tb => createSpringConstraint a ra ta b rb tb
  end.


(** The calls a host application makes between [initialize] and
    [finalize]. *)
Inductive call : Type :=
| SetGravity (gravity : Vector3.t)
| Create (t : TypedConstraint)
| GetBox (min max : Vector3.t) (scale : btVector3.t)
| GetSphere (radius : float) (scale : btVector3.t)
| GetTriangleMesh (vertexData : addr) (vertexPositionStride : Z) (indexData : addr)
| GetHeightfield (data : addr) (width height : Z)
| Update (elapsedTime : Z)
| Pause
| Resume.

Definition perform (c : call) : M unit :=
  match c with
  | SetGravity gravity => setGravity gravity
  | Create t => create t ;; ret tt
  | GetBox min max scale => getBox min max scale ;; ret tt
  | GetSphere radius scale => getSphere radius scale ;; ret tt
  | GetTriangleMesh vertexData vertexPositionStride indexData =>
      getTriangleMesh vertexData vertexPositionStride indexData tt ;; ret tt
  | GetHeightfield data width height => getHeightfield data width height ;; ret tt
  | Update elapsedTime => update elapsedTime
  | Pause => pause
  | Resume => resume
  end.

Fixpoint perform_all (cs : list call) : M unit :=
  match cs with
  | [] => ret tt
  | c :: cs' => perform c ;; perform_all cs'
  end.

(** A session: [initialize], then the calls. *)
Definition session (cs : list call) : M unit :=
  initialize ;; perform_all cs.

(** The number of constraints a list of calls creates. *)
Fixpoint creations (cs : list call) : nat :=
  match cs with
  | [] => 0
  | Create _ :: cs' => S (creations cs')
  | _ :: cs' => creations cs'
  end.

(** The native constraints behind a list of wrappers. *)
Definition natives (h : gmap addr Object) (ps : list addr) : list addr :=
  flat_map (fun p => match h !! p with
                     | Some (ObjPhysicsConstraint pc) => [_constraint pc]
                     | _ => []
                     end) ps.

(** An operation was refused: it ended in an error that is not an access
    through the null world pointer. *)
Definition refused {A} (r : result (A * State)) : Prop :=
  ∃ f, r = Fault f ∧ f ≠ NullPointerDereference.

(** The controller after [initialize], when the next address was [n]. *)
Definition initialized (n : addr) (c : PhysicsController) : PhysicsController :=
  {| _gravity := _gravity c;
     _collisionConfiguration := n;
     _dispatcher := N.succ n;
     _overlappingPairCache := N.succ (N.succ n);
     _solver := N.succ (N.succ (N.succ n));
     _world := N.succ (N.succ (N.succ (N.succ n)));
     _shapes := _shapes c;
     _constraints := _constraints c |}.

(** The world that [initialize] creates. *)
Definition initial_world (n : addr) (c : PhysicsController) : World :=
  World_setGravity (_gravity c)
    (World_new (N.succ n) (N.succ (N.succ n)) (N.succ (N.succ (N.succ n))) n).

End Ownership.

(** ** Outcomes used in the statements *)

Section Outcomes.
Context `{E : Engine}.


(** The outcome of creating a shape [o] in a state [s]: the shape is the one
    new object, it is appended to the shape registry and returned. *)
Definition shape_registered (o : Object) (s : State) : result (addr * State) :=
  Ok (next s,
      {| heap := <[next s := o]> (heap s);
         next := N.succ (next s);
         trace := trace s;
         self := set__shapes (_shapes (self s) ++ [next s]) (self s) |}).

(** The state an operation leaves behind, or the state it started from when
    it did not return. *)
Definition run {A} (c : M A) (s : State) : State :=
  match c s with
  | Ok (_, s') => s'
  | Fault _ => s
  end.

End Outcomes.

(** ** The order on scalars *)

(** A rank for the numbers that are not NaN: comparing ranks in the
    lexicographic order on triples is comparing the numbers. *)
Definition rank (v : spec_float) : Z * Z * Z :=
  match v with
  | S754_nan => (0, 0, 0)
  | S754_infinity true => (-2, 0, 0)
  | S754_infinity false => (2, 0, 0)
  | S754_zero _ => (0, 0, 0)
  | S754_finite true m e => (-1, - e, - Zpos m)
  | S754_finite false m e => (1, e, Zpos m)
  end%Z.

Definition lex_lt (a b : Z * Z * Z) : Prop :=
  let '(a1, a2, a3) := a in
  let '(b1, b2, b3) := b in
  (a1 < b1 ∨ (a1 = b1 ∧ (a2 < b2 ∨ (a2 = b2 ∧ a3 < b3))))%Z.

Definition lex_le (a b : Z * Z * Z) : Prop :=
  let '(a1, a2, a3) := a in
  let '(b1, b2, b3) := b in
  (a1 < b1 ∨ (a1 = b1 ∧ (a2 < b2 ∨ (a2 = b2 ∧ a3 <= b3))))%Z.

(** The three components of a scale are ordered numbers. *)
Definition ordered (scale : btVector3.t) : Prop :=
  is_nan (btVector3.x scale) = false
  ∧ is_nan (btVector3.y scale) = false
  ∧ is_nan (btVector3.z scale) = false.

(** ** Sample data *)

Module Sample.

Definition f (n : Z) : float := float_of_long n.

Definition vec (a b c : Z) : Vector3.t := Vector3.mk (f a) (f b) (f c).
Definition bvec (a b c : Z) : btVector3.t := btVector3.mk (f a) (f b) (f c).
Definition identity : Quaternion.t := Quaternion.mk (f 0) (f 0) (f 0) (f 1).

(** Three constraints between bodies at addresses 100 and 101. *)
Definition C1 : TypedConstraint :=
  Fixed 100%N identity (vec 0 0 0) 101%N identity (vec 0 1 0).
Definition C2 : TypedConstraint :=
  Socket 100%N (vec 1 0 0) 101%N (vec 0 0 0).
Definition C3 : TypedConstraint :=
  Hinge 100%N identity (vec 0 0 1) 101%N identity (vec 0 0 0).

(** The state after [initialize] on a newly constructed controller, and
    the world it has. *)
Definition live : @State stub_engine := run initialize State_new.
Definition live_world : @World stub_engine := initial_world 1%N PhysicsController_new.

(** A world with three collision objects, as the host's body-construction
    code leaves it: a rigid body at 7 with its motion state at 6, a collision
    object at 8 that is not a rigid body, and a rigid body at 9 without a
    motion state. *)
Definition with_bodies : @State stub_engine :=
  {| heap :=
       <[5%N := ObjWorld (World_setCollisionObjects [7%N; 8%N; 9%N] live_world)]>
         (<[9%N := ObjCollisionObject true NULL]>
            (<[8%N := ObjCollisionObject false NULL]>
               (<[7%N := ObjCollisionObject true 6%N]>
                  (<[6%N := ObjMotionState]> (heap live)))));
     next := 10%N;
     trace := [];
     self := self live |}.

(** [|v - e/1000| <= 2^-24 * |e/1000|] for the value [v] of [seconds e]. *)
Definition accurate (e : Z) : bool :=
  let '(n, d) := to_frac (seconds e) in
  (Z.abs (n * 1000 - e * d) * 2 ^ 24 <=? Z.abs e * d)%Z.

(** [f] holds of [from], [from + 1], ..., [from + k - 1]. *)
Fixpoint all_from (k : nat) (from : Z) (f : Z -> bool) : bool :=
  match k with
  | O => true
  | S k' => f from && all_from k' (from + 1)%Z f
  end.

End Sample.

(** ** Lifecycles *)

Section Lifecycles.
Context `{E : Engine}.

(** No world is live, and the store holds nothing but what the two
    registries point to: the controller as it is before [initialize] and,
    when no constraint was created, after [finalize]. *)
Definition dormant (s : State) : Prop :=
  _world (self s) = NULL
  ∧ idle s
  ∧ ∀ p, is_Some (heap s !! p) -> p ∈ _constraints (self s) ++ _shapes (self s).

(** The calls that do not go through the world pointer. *)
Definition worldless (c : call) : bool :=
  match c with
  | Create _ | Update _ => false
  | _ => true
  end.

(** Whole lifecycles, one after the other: [initialize], the calls,
    [finalize]. *)
Fixpoint lifecycles (css : list (list call)) : M unit :=
  match css with
  | [] => ret tt
  | cs :: css' => session cs ;; finalize ;; lifecycles css'
  end.

(** The world's constraints are the native constraints of the registered
    wrappers, in the same order. *)
Definition in_step (s : State) (w : World) : Prop :=
  m_constraints w = natives (heap s) (_constraints (self s)).

(** The addresses a trace destroys, in order. *)
Definition destroyed (t : list event) : list addr :=
  flat_map (fun e => match e with Destroy p => [p] | _ => [] end) t.

End Lifecycles.

(** ** Classes of scalars *)

(** The classes of scalars: zeros and finite numbers, and zeros alone. *)
Definition is_finite (v : spec_float) : bool :=
  match v with S754_zero _ | S754_finite _ _ _ => true | _ => false end.

Definition is_zero (v : spec_float) : bool :=
  match v with S754_zero _ => true | _ => false end.

(** The sign of a scalar: [None] for not-a-number. *)
Definition sign_of (v : spec_float) : option bool :=
  match v with
  | S754_zero s | S754_infinity s | S754_finite s _ _ => Some s
  | S754_nan => None
  end.

(** ** Values of scalars *)


(** The time step [t] is [e / 1000] seconds rounded to single precision: [t]
    is a number, [|t - e/1000| <= 2^-24 * |e/1000|], and [t] is [e / 1000]
    itself when 125 divides [e], which is when [e / 1000] is a binary
    fraction. *)
Definition millis_rounded (e : Z) (t : spec_float) : bool :=
  is_finite t
  && (let '(n, d) := to_frac t in
      (Z.abs (n * 1000 - e * d) * 2 ^ 24 <=? Z.abs e * d)%Z
      && (if (e mod 125 =? 0)%Z then (n * 1000 =? e * d)%Z else true)).

(** ** Grids of sample scalars *)

Module Grid.


(** [f] holds of every integer from [- r] to [r]. *)
Definition all_within (r : Z) (f : Z -> bool) : bool :=
  Sample.all_from (Z.to_nat (2 * r + 1)) (- r) f.

End Grid.

(** ** A sample world with a constraint *)

Module Scenes.

(** The sample world with one constraint created in it. *)
Definition one_constraint : @State stub_engine := run (create Sample.C1) Sample.live.
Definition one_constraint_world : @World stub_engine :=
  World_addConstraint (next Sample.live) Sample.live_world.

End Scenes.

(** * Properties *)

(** Membership in concatenations. *)
Ltac in_apps := rewrite ?elem_of_app, ?elem_of_cons; tauto.

Section Basics.
Context `{E : Engine}.

Lemma bind_Ok {A B} (c : M A) (k : A -> M B) s a s' :
  c s = Ok (a, s') -> bind c k s = k a s'.
Proof. intros H. unfold bind. by rewrite H. Qed.

Lemma bind_Fault {A B} (c : M A) (k : A -> M B) s f :
  c s = Fault f -> bind c k s = Fault f.
Proof. intros H. unfold bind. by rewrite H. Qed.

Lemma bind_bind {A B C} (c : M A) (k1 : A -> M B) (k2 : B -> M C) s :
  bind (bind c k1) k2 s = bind c (fun a => bind (k1 a) k2) s.
Proof. unfold bind. by destruct (c s) as [[a s']|f]. Qed.

Lemma is_null_false p : p ≠ NULL -> is_null p = false.
Proof. intros H. unfold is_null. by apply N.eqb_neq. Qed.

(** *** Array removal *)

Lemma findLinearSearch_lookup key l :
  findLinearSearch key l < length l -> l !! findLinearSearch key l = Some key.
Proof.
  induction l as [|p l IH]; simpl; [lia|].
  destruct (N.eqb p key) eqn:Hp; simpl.
  - apply N.eqb_eq in Hp. by subst.
  - intros H. apply IH. lia.
Qed.

Lemma findLinearSearch_elem key l :
  key ∈ l -> findLinearSearch key l < length l.
Proof.
  induction l as [|p l IH]; simpl.
  - by intros ?%elem_of_nil.
  - destruct (N.eqb p key) eqn:Hp; [lia|].
    intros [->|H]%elem_of_cons.
    + by rewrite N.eqb_refl in Hp.
    + specialize (IH H). lia.
Qed.

(** Removing the element that sits in the last slot drops the last slot. *)
Lemma array_remove_last c l : array_remove c (l ++ [c]) = l.
Proof.
  unfold array_remove.
  assert (Hi : findLinearSearch c (l ++ [c]) < length (l ++ [c])).
  { apply findLinearSearch_elem. apply elem_of_app. right. by left. }
  destruct (Nat.ltb_spec (findLinearSearch c (l ++ [c])) (length (l ++ [c]))); [|lia].
  rewrite last_snoc.
  rewrite list_insert_id by by apply findLinearSearch_lookup.
  apply removelast_last.
Qed.

(** *** The store after deletions *)

Lemma free_all_lookup ps (h : gmap addr Object) p :
  free_all ps h !! p = if decide (p ∈ ps) then None else h !! p.
Proof.
  revert h. induction ps as [|q ps IH]; intros h.
  - destruct (decide (p ∈ [])) as [H|H]; [by apply elem_of_nil in H|done].
  - change (free_all (q :: ps) h) with (free_all ps (base.delete q h)).
    rewrite IH.
    destruct (decide (p ∈ ps)) as [Hin|Hin], (decide (p ∈ q :: ps)) as [Hc|Hc];
      try done.
    + exfalso. apply Hc. by right.
    + apply elem_of_cons in Hc as [->|?]; [|done]. apply lookup_delete_eq.
    + apply lookup_delete_ne. intros ->. apply Hc. by left.
Qed.

Lemma free_all_app ps qs (h : gmap addr Object) :
  free_all (ps ++ qs) h = free_all qs (free_all ps h).
Proof. unfold free_all. by rewrite foldl_app. Qed.

Lemma free_all_insert ps (h : gmap addr Object) p o :
  p ∉ ps -> free_all ps (<[p := o]> h) = <[p := o]> (free_all ps h).
Proof.
  intros Hp. apply map_eq. intros q. rewrite free_all_lookup.
  destruct (decide (q = p)) as [->|Hne].
  - rewrite !lookup_insert_eq. by case_decide.
  - rewrite !lookup_insert_ne by done. by rewrite free_all_lookup.
Qed.

End Basics.

(** Run the next command of a sequence, given what it returns. *)
Ltac step H := rewrite ?bind_bind; rewrite (bind_Ok _ _ _ _ _ H); cbv beta.

Section Primitives.
Context `{E : Engine}.

Lemma state_eta (s : State) :
  {| heap := heap s; next := next s; trace := trace s; self := self s |} = s.
Proof. by destruct s. Qed.

Lemma assign_bind {B} f (k : unit -> M B) s :
  bind (assign f) k s =
    k tt {| heap := heap s; next := next s; trace := trace s; self := f (self s) |}.
Proof. done. Qed.

Lemma this_bind {B} (k : PhysicsController -> M B) s : bind this k s = k (self s) s.
Proof. done. Qed.

Lemma new_bind {B} o (k : addr -> M B) s :
  bind (new o) k s =
    k (next s) {| heap := <[next s := o]> (heap s); next := N.succ (next s);
                  trace := trace s; self := self s |}.
Proof. done. Qed.

Lemma world_Ok s w :
  _world (self s) ≠ NULL -> heap s !! _world (self s) = Some (ObjWorld w) ->
  world s = Ok (w, s).
Proof.
  intros Hn Hw. unfold world, bind, this, load.
  by rewrite (is_null_false _ Hn), Hw.
Qed.

Lemma world_null s :
  _world (self s) = NULL -> world s = Fault NullPointerDereference.
Proof. intros Hn. unfold world, bind, this, load. by rewrite Hn. Qed.

Lemma world_call_Ok f s w :
  _world (self s) ≠ NULL -> heap s !! _world (self s) = Some (ObjWorld w) ->
  world_call f s =
    Ok (tt, {| heap := <[_world (self s) := ObjWorld (f w)]> (heap s);
               next := next s; trace := trace s; self := self s |}).
Proof.
  intros Hn Hw. unfold world_call. unfold bind at 1. unfold this.
  by rewrite (bind_Ok _ _ _ _ _ (world_Ok s w Hn Hw)).
Qed.

Lemma world_call_null f s :
  _world (self s) = NULL -> world_call f s = Fault NullPointerDereference.
Proof.
  intros Hn. unfold world_call. unfold bind at 1. unfold this.
  by rewrite (bind_Fault _ _ _ _ (world_null s Hn)).
Qed.

Lemma delete_Ok p h n t c :
  p ≠ NULL -> is_Some (h !! p) ->
  delete p {| heap := h; next := n; trace := t; self := c |} =
    Ok (tt, {| heap := base.delete p h; next := n;
               trace := t ++ [Destroy p]; self := c |}).
Proof.
  intros Hn [o Ho]. unfold delete. simpl. by rewrite (is_null_false _ Hn), Ho.
Qed.

Lemma at_index_Ok (l : list addr) i p s :
  l !! i = Some p -> at_index l i s = Ok (p, s).
Proof. intros H. unfold at_index. by rewrite H. Qed.

End Primitives.

Section Teardown.
Context `{E : Engine}.

(** Loop 1: the world's constraints go from the last slot to the first, each
    one detached and then destroyed. *)
Lemma for_down_constraints cs : ∀ s w,
  _world (self s) ≠ NULL ->
  heap s !! _world (self s) = Some (ObjWorld w) ->
  m_constraints w = cs ->
  NoDup cs ->
  (∀ c, c ∈ cs -> c ≠ NULL ∧ c ≠ _world (self s) ∧ is_Some (heap s !! c)) ->
  for_down (length cs) remove_and_delete_constraint s =
    Ok (tt, {| heap := free_all (reverse cs)
                         (<[_world (self s) := ObjWorld (World_setConstraints [] w)]> (heap s));
               next := next s;
               trace := trace s ++ flat_map (fun c => [Detach c; Destroy c]) (reverse cs);
               self := self s |}).
Proof.
  induction cs as [|c cs IH] using rev_ind; intros s w Hn Hw Hcs Hnd Hlive.
  - simpl. unfold ret. do 2 f_equal.
    rewrite app_nil_r.
    replace (World_setConstraints [] w) with w by (destruct w; simpl in *; by subst).
    rewrite insert_id by done. by rewrite state_eta.
  - rewrite length_app. simpl. rewrite Nat.add_1_r. simpl.
    destruct (Hlive c) as (Hc0 & Hcw & Hcl); [apply elem_of_app; right; by left|].
    apply NoDup_app in Hnd as (Hnd & Hdisj & _).
    unfold remove_and_delete_constraint at 1.
    step (world_Ok s w Hn Hw). rewrite Hcs.
    step (at_index_Ok _ _ c s (list_lookup_middle cs [] c _ eq_refl)).
    unfold world_removeConstraint.
    step (world_call_Ok (World_removeConstraint c) s w Hn Hw).
    unfold emit at 1. unfold bind at 1.
    unfold World_removeConstraint. rewrite Hcs, array_remove_last.
    assert (Hd : is_Some (<[_world (self s) := ObjWorld (World_setConstraints cs w)]>
                            (heap s) !! c)) by by rewrite lookup_insert_ne.
    simpl. rewrite (bind_Ok _ _ _ _ _ (delete_Ok c _ _ _ _ Hc0 Hd)).
    simpl.
    rewrite (IH _ (World_setConstraints cs w)); simpl; try done.
    + do 2 f_equal. rewrite reverse_snoc. simpl. f_equal.
      * rewrite <- delete_insert_ne by done. by rewrite insert_insert_eq.
      * by rewrite <- !app_assoc.
    + rewrite lookup_delete_ne by done. by rewrite lookup_insert_eq.
    + intros c' Hc'. destruct (Hlive c') as (? & ? & ?); [apply elem_of_app; by left|].
      split_and!; try done.
      rewrite lookup_delete_ne, lookup_insert_ne; try done.
      intros ->. apply (Hdisj c' Hc'). by left.
Qed.

(** Loop 2: the wrappers go in registry order; the registry itself is not
    touched. *)
Lemma for_up_constraints l : ∀ pre s,
  _constraints (self s) = pre ++ l ->
  NoDup l ->
  (∀ p, p ∈ l -> p ≠ NULL ∧ is_Some (heap s !! p)) ->
  for_up (length l) (length pre) delete_constraint_at s =
    Ok (tt, {| heap := free_all l (heap s); next := next s;
               trace := trace s ++ map Destroy l; self := self s |}).
Proof.
  induction l as [|p l IH]; intros pre [h n t c] Hc Hnd Hlive; simpl in *.
  - unfold ret. by rewrite app_nil_r.
  - apply NoDup_cons in Hnd as [Hp Hnd].
    destruct (Hlive p) as [Hp0 Hpl]; [by left|].
    unfold delete_constraint_at at 1. unfold this at 1.
    rewrite !bind_bind. unfold bind at 1. simpl. rewrite Hc.
    step (at_index_Ok _ _ p {| heap := h; next := n; trace := t; self := c |}
            (list_lookup_middle pre l p _ eq_refl)).
    rewrite (bind_Ok _ _ _ _ _ (delete_Ok p _ _ _ _ Hp0 Hpl)).
    replace (S (length pre)) with (length (pre ++ [p]))
      by (rewrite length_app; simpl; lia).
    rewrite IH; simpl.
    + by rewrite <- app_assoc.
    + by rewrite <- app_assoc.
    + done.
    + intros q Hq. destruct (Hlive q) as [? ?]; [by right|]. split; [done|].
      rewrite lookup_delete_ne; [done|]. by intros ->.
Qed.

(** Loop 4: the shapes go in registry order, each slot being cleared before
    its shape is destroyed. *)
Lemma for_up_shapes l : ∀ pre s,
  _shapes (self s) = pre ++ l ->
  NoDup l ->
  (∀ p, p ∈ l -> p ≠ NULL ∧ is_Some (heap s !! p)) ->
  for_up (length l) (length pre) delete_shape_at s =
    Ok (tt, {| heap := free_all l (heap s); next := next s;
               trace := trace s ++ map Destroy l;
               self := set__shapes (pre ++ replicate (length l) NULL) (self s) |}).
Proof.
  induction l as [|p l IH]; intros pre [h n t c] Hc Hnd Hlive; simpl in *.
  - unfold ret. rewrite app_nil_r in Hc. rewrite !app_nil_r, <- Hc. by destruct c.
  - apply NoDup_cons in Hnd as [Hp Hnd].
    destruct (Hlive p) as [Hp0 Hpl]; [by left|].
    unfold delete_shape_at at 1. unfold this at 1.
    rewrite !bind_bind. unfold bind at 1. simpl. rewrite Hc.
    step (at_index_Ok _ _ p {| heap := h; next := n; trace := t; self := c |}
            (list_lookup_middle pre l p _ eq_refl)).
    unfold assign at 1. rewrite !bind_bind. unfold bind at 1. simpl.
    rewrite (bind_Ok _ _ _ _ _ (delete_Ok p _ _ _ _ Hp0 Hpl)).
    replace (S (length pre)) with (length (pre ++ [NULL]))
      by (rewrite length_app; simpl; lia).
    rewrite Hc, (insert_app_r_alt pre (p :: l) (length pre)) by lia.
    rewrite Nat.sub_diag. simpl.
    rewrite IH; simpl.
    + by rewrite <- !app_assoc.
    + by rewrite <- app_assoc.
    + done.
    + intros q Hq. destruct (Hlive q) as [? ?]; [by right|]. split; [done|].
      rewrite lookup_delete_ne; [done|]. by intros ->.
Qed.

Lemma motion_state_ext (h h' : gmap addr Object) o :
  h' !! o = h !! o -> motion_state h' o = motion_state h o.
Proof. intros H. unfold motion_state. by rewrite H. Qed.

Lemma flat_map_ext_elem {A B} (f g : A -> list B) (l : list A) :
  (∀ x, x ∈ l -> f x = g x) -> flat_map f l = flat_map g l.
Proof.
  induction l as [|a l IH]; intros H; simpl; [done|].
  rewrite (H a) by by left. rewrite IH; [done|]. intros x Hx. apply H. by right.
Qed.

Lemma NoDup_reverse {A} (l : list A) : NoDup (reverse l) ↔ NoDup l.
Proof. by rewrite reverse_Permutation. Qed.

Lemma elem_of_flat_map {A B} (f : A -> list B) (l : list A) (x : B) :
  x ∈ flat_map f l ↔ ∃ y, y ∈ l ∧ x ∈ f y.
Proof.
  rewrite list_elem_of_In, in_flat_map. split.
  - intros (y & Hy & Hx). exists y. by rewrite !list_elem_of_In.
  - intros (y & Hy & Hx). exists y. by rewrite <- !list_elem_of_In.
Qed.

Lemma elem_of_body_resources (h : gmap addr Object) o : o ∈ body_resources h o.
Proof. unfold body_resources. apply elem_of_app. right. by left. Qed.

(** Loop 3: the collision objects go from the last slot to the first; for
    each, its motion state is destroyed if it has one, then the object is
    taken out of the world and destroyed. *)
Lemma for_down_objects os : ∀ s w,
  _world (self s) ≠ NULL ->
  heap s !! _world (self s) = Some (ObjWorld w) ->
  m_collisionObjects w = os ->
  (∀ o, o ∈ os -> ∃ rb m, heap s !! o = Some (ObjCollisionObject rb m)) ->
  NoDup (flat_map (body_resources (heap s)) (reverse os)) ->
  (∀ p, p ∈ flat_map (body_resources (heap s)) (reverse os) ->
        p ≠ NULL ∧ p ≠ _world (self s) ∧ is_Some (heap s !! p)) ->
  for_down (length os) remove_and_delete_object s =
    Ok (tt, {| heap := free_all (flat_map (body_resources (heap s)) (reverse os))
                         (<[_world (self s) := ObjWorld (World_setCollisionObjects [] w)]>
                            (heap s));
               next := next s;
               trace := trace s ++ flat_map (body_events (heap s)) (reverse os);
               self := self s |}).
Proof.
  induction os as [|o os IH] using rev_ind;
    intros [h n t c] w Hn Hw Hos Hobj Hnd Hlive; simpl in *.
  - unfold ret. do 2 f_equal. rewrite app_nil_r.
    replace (World_setCollisionObjects [] w) with w by (destruct w; simpl in *; by subst).
    by rewrite insert_id.
  - rewrite length_app. simpl. rewrite Nat.add_1_r. simpl.
    rewrite reverse_snoc in *. simpl in *.
    destruct (Hobj o) as (rb & m & Ho); [apply elem_of_app; right; by left|].
    apply NoDup_app in Hnd as (Hnd1 & Hdisj & Hnd2).
    set (s0 := {| heap := h; next := n; trace := t; self := c |}).
    unfold remove_and_delete_object at 1.
    step (world_Ok s0 w Hn Hw). rewrite Hos.
    step (at_index_Ok _ _ o s0 (list_lookup_middle os [] o _ eq_refl)).
    assert (Ho0 : o ≠ NULL ∧ o ≠ _world c ∧ is_Some (h !! o)).
    { apply Hlive. apply elem_of_app. left. apply elem_of_app. right. by left. }
    destruct Ho0 as (Ho0 & Hopw & Hol).
    assert (Hload : load o s0 = Ok (ObjCollisionObject rb m, s0)).
    { unfold load. simpl. by rewrite (is_null_false _ Ho0), Ho. }
    step Hload.
    (* the motion state *)
    assert (Hms : (if rb && negb (is_null m) then delete m else ret tt) s0 =
                  Ok (tt, {| heap := free_all (motion_state h o) h; next := n;
                             trace := t ++ map Destroy (motion_state h o); self := c |})).
    { unfold motion_state. rewrite Ho. destruct rb; simpl.
      - destruct (is_null m) eqn:Hm; simpl.
        + unfold ret, s0. by rewrite app_nil_r.
        + unfold s0. apply delete_Ok.
          * intros ->. done.
          * assert (Hin : m ∈ body_resources h o ++
                               flat_map (body_resources h) (reverse os)).
            { apply elem_of_app. left. unfold body_resources, motion_state.
              rewrite Ho, Hm. by left. }
            by destruct (Hlive m Hin) as (_ & _ & ?).
      - unfold ret, s0. by rewrite app_nil_r. }
    step Hms.
    assert (Hmso : ∀ q, q ∈ motion_state h o -> q ≠ o ∧ q ≠ _world c).
    { intros q Hq. split.
      - intros ->. unfold body_resources in Hnd1.
        apply NoDup_app in Hnd1 as (_ & Hd & _). apply (Hd o Hq). by left.
      - assert (Hin : q ∈ body_resources h o ++
                           flat_map (body_resources h) (reverse os)).
        { apply elem_of_app. left. apply elem_of_app. by left. }
        by destruct (Hlive q Hin) as (_ & ? & _). }
    assert (Hwm : free_all (motion_state h o) h !! _world c = Some (ObjWorld w)).
    { rewrite free_all_lookup. case_decide as Hin; [|done].
      by destruct (Hmso _ Hin). }
    unfold world_removeCollisionObject.
    step (world_call_Ok (World_removeCollisionObject o)
            {| heap := free_all (motion_state h o) h; next := n;
               trace := t ++ map Destroy (motion_state h o); self := c |} w Hn Hwm).
    unfold emit at 1. unfold bind at 1. simpl.
    unfold World_removeCollisionObject. rewrite Hos, array_remove_last.
    assert (Hd : is_Some (<[_world c := ObjWorld (World_setCollisionObjects os w)]>
                            (free_all (motion_state h o) h) !! o)).
    { rewrite lookup_insert_ne by done. rewrite free_all_lookup.
      case_decide as Hin; [|done]. by destruct (Hmso _ Hin). }
    rewrite (bind_Ok _ _ _ _ _ (delete_Ok o _ _ _ _ Ho0 Hd)).
    (* the remaining objects are as they were *)
    assert (Hsame : ∀ q, q ∈ flat_map (body_resources h) (reverse os) ->
      base.delete o (<[_world c := ObjWorld (World_setCollisionObjects os w)]>
                       (free_all (motion_state h o) h)) !! q = h !! q).
    { intros q Hq.
      assert (Hin : q ∈ body_resources h o ++ flat_map (body_resources h) (reverse os))
        by (apply elem_of_app; by right).
      destruct (Hlive q Hin) as (_ & Hqw & _).
      assert (Hqo : q ∉ body_resources h o) by (intros Hc; by apply (Hdisj q Hc)).
      rewrite lookup_delete_ne, lookup_insert_ne, free_all_lookup; try done.
      - case_decide as Hc; [|done]. exfalso. apply Hqo. apply elem_of_app. by left.
      - intros ->. apply Hqo. apply elem_of_app. right. by left. }
    assert (Hres : flat_map (body_resources
        (base.delete o (<[_world c := ObjWorld (World_setCollisionObjects os w)]>
                          (free_all (motion_state h o) h)))) (reverse os)
        = flat_map (body_resources h) (reverse os)).
    { apply flat_map_ext_elem. intros q Hq. unfold body_resources. f_equal.
      apply motion_state_ext. apply Hsame.
      apply elem_of_flat_map. exists q. split; [done|apply elem_of_body_resources]. }
    assert (Hev : flat_map (body_events
        (base.delete o (<[_world c := ObjWorld (World_setCollisionObjects os w)]>
                          (free_all (motion_state h o) h)))) (reverse os)
        = flat_map (body_events h) (reverse os)).
    { apply flat_map_ext_elem. intros q Hq. unfold body_events. f_equal. f_equal.
      apply motion_state_ext. apply Hsame.
      apply elem_of_flat_map. exists q. split; [done|apply elem_of_body_resources]. }
    rewrite (IH _ (World_setCollisionObjects os w)); simpl; try done.
    + rewrite Hres, Hev. do 2 f_equal. f_equal.
      * rewrite free_all_app. f_equal. unfold body_resources.
        rewrite free_all_app. simpl.
        rewrite <- delete_insert_ne by done. rewrite insert_insert_eq.
        f_equal. rewrite free_all_insert; [done|].
        intros Hin. by destruct (Hmso _ Hin).
      * unfold body_events. by rewrite <- !app_assoc.
    + rewrite lookup_delete_ne by done. by rewrite lookup_insert_eq.
    + intros q Hq.
      destruct (Hobj q) as (rb' & m' & Hq'); [apply elem_of_app; by left|].
      exists rb', m'. rewrite <- Hq'. apply Hsame.
      apply elem_of_flat_map. exists q.
      split; [by apply elem_of_reverse|apply elem_of_body_resources].
    + by rewrite Hres.
    + rewrite Hres. intros q Hq.
      destruct (Hlive q) as (? & ? & ?); [apply elem_of_app; by right|].
      split_and!; try done. by rewrite Hsame.
Qed.

Lemma free_all_delete ps (h : gmap addr Object) p :
  base.delete p (free_all ps h) = free_all ps (base.delete p h).
Proof.
  revert h. induction ps as [|q ps IH]; intros h; simpl; [done|].
  rewrite IH. f_equal. apply delete_delete.
Qed.

Lemma body_resources_ext (h h' : gmap addr Object) (l : list addr) :
  (∀ o, o ∈ l -> h' !! o = h !! o) ->
  flat_map (body_resources h') l = flat_map (body_resources h) l.
Proof.
  intros H. apply flat_map_ext_elem. intros o Ho. unfold body_resources.
  f_equal. apply motion_state_ext. by apply H.
Qed.

Lemma body_events_ext (h h' : gmap addr Object) (l : list addr) :
  (∀ o, o ∈ l -> h' !! o = h !! o) ->
  flat_map (body_events h') l = flat_map (body_events h) l.
Proof.
  intros H. apply flat_map_ext_elem. intros o Ho. unfold body_events.
  do 2 f_equal. apply motion_state_ext. by apply H.
Qed.

(** What [finalize] does to a state that is fit for it: it returns, the
    owned objects are destroyed and nothing else is, the trace grows by the
    teardown events, and the controller is left as [finalized] describes. *)
Lemma finalize_wf s w :
  wf s w ->
  finalize s =
    Ok (tt, {| heap := free_all (owned s w) (heap s); next := next s;
               trace := trace s ++ teardown s w; self := finalized (self s) |}).
Proof.
  destruct s as [h n t c]. intros [Hw Hnd Hlive Hobj _]. simpl in *.
  unfold owned in *. simpl in *.
  set (A := reverse (m_constraints w)) in *.
  set (B := _constraints c) in *.
  set (C := flat_map (body_resources h) (reverse (m_collisionObjects w))) in *.
  set (D := _shapes c) in *.
  set (F := [_world c; _solver c; _overlappingPairCache c; _dispatcher c;
             _collisionConfiguration c]) in *.
  assert (HinA : ∀ q, q ∈ A -> q ∈ A ++ B ++ C ++ D ++ F) by (intros q Hq; in_apps).
  assert (HinB : ∀ q, q ∈ B -> q ∈ A ++ B ++ C ++ D ++ F) by (intros q Hq; in_apps).
  assert (HinC : ∀ q, q ∈ C -> q ∈ A ++ B ++ C ++ D ++ F) by (intros q Hq; in_apps).
  assert (HinD : ∀ q, q ∈ D -> q ∈ A ++ B ++ C ++ D ++ F) by (intros q Hq; in_apps).
  assert (HinF : ∀ q, q ∈ F -> q ∈ A ++ B ++ C ++ D ++ F) by (intros q Hq; in_apps).
  apply NoDup_app in Hnd as (HndA & HdA & Hnd).
  apply NoDup_app in Hnd as (HndB & HdB & Hnd).
  apply NoDup_app in Hnd as (HndC & HdC & Hnd).
  apply NoDup_app in Hnd as (HndD & HdD & HndF).
  assert (Hpw : _world c ∈ F) by (subst F; in_apps).
  assert (Hn : _world c ≠ NULL) by (apply Hlive; auto).
  set (s0 := {| heap := h; next := n; trace := t; self := c |}).
  unfold finalize.
  (* the world's constraints *)
  assert (H1 : finalize_world_constraints s0 =
    Ok (tt, {| heap := free_all A (<[_world c := ObjWorld (World_setConstraints [] w)]> h);
               next := n;
               trace := t ++ flat_map (fun c => [Detach c; Destroy c]) A;
               self := c |})).
  { unfold finalize_world_constraints. step (world_Ok s0 w Hn Hw).
    apply (for_down_constraints (m_constraints w) s0 w); simpl; try done.
    - by apply NoDup_reverse.
    - intros q Hq%elem_of_reverse. fold A in Hq.
      destruct (Hlive q (HinA q Hq)) as [? ?]. split_and!; try done.
      intros ->. apply (HdA _ Hq). in_apps. }
  step H1. clear H1.
  set (W1 := World_setConstraints [] w).
  set (h1 := free_all A (<[_world c := ObjWorld W1]> h)).
  assert (Hh1 : ∀ q, q ∉ A -> q ≠ _world c -> h1 !! q = h !! q).
  { intros q HqA Hqw. unfold h1. rewrite free_all_lookup.
    case_decide; [done|]. by rewrite lookup_insert_ne. }
  assert (Hh1w : h1 !! _world c = Some (ObjWorld W1)).
  { unfold h1. rewrite free_all_lookup. case_decide as Hin.
    - exfalso. apply (HdA _ Hin). in_apps.
    - by rewrite lookup_insert_eq. }
  (* the wrappers *)
  assert (H2 : finalize_constraints
      {| heap := h1; next := n;
         trace := t ++ flat_map (fun c => [Detach c; Destroy c]) A; self := c |} =
    Ok (tt, {| heap := free_all B h1; next := n;
               trace := (t ++ flat_map (fun c => [Detach c; Destroy c]) A) ++ map Destroy B;
               self := c |})).
  { unfold finalize_constraints. unfold this at 1. unfold bind at 1. simpl.
    apply (for_up_constraints B [] {| heap := h1; next := n;
         trace := t ++ flat_map (fun c => [Detach c; Destroy c]) A; self := c |});
      simpl; try done.
    intros q Hq. destruct (Hlive q (HinB q Hq)) as [? ?]. split; [done|].
    rewrite Hh1; [done|..].
    - intros HqA. apply (HdA _ HqA). in_apps.
    - intros ->. apply (HdB _ Hq). in_apps. }
  step H2. clear H2.
  set (h2 := free_all B h1).
  assert (Hh2 : ∀ q, q ∉ A -> q ∉ B -> q ≠ _world c -> h2 !! q = h !! q).
  { intros q HqA HqB Hqw. unfold h2. rewrite free_all_lookup.
    case_decide; [done|]. by apply Hh1. }
  assert (Hh2w : h2 !! _world c = Some (ObjWorld W1)).
  { unfold h2. rewrite free_all_lookup. case_decide as Hin; [|done].
    exfalso. apply (HdB _ Hin). in_apps. }
  (* the collision objects *)
  assert (HC2 : ∀ q, q ∈ C -> h2 !! q = h !! q).
  { intros q Hq. apply Hh2.
    - intros HqA. apply (HdA _ HqA). in_apps.
    - intros HqB. apply (HdB _ HqB). in_apps.
    - intros ->. apply (HdC _ Hq). in_apps. }
  assert (Hos2 : ∀ o, o ∈ reverse (m_collisionObjects w) -> h2 !! o = h !! o).
  { intros o Ho. apply HC2. apply elem_of_flat_map. exists o.
    split; [done|apply elem_of_body_resources]. }
  assert (H3 : finalize_collision_objects
      {| heap := h2; next := n;
         trace := (t ++ flat_map (fun c => [Detach c; Destroy c]) A) ++ map Destroy B;
         self := c |} =
    Ok (tt, {| heap := free_all C (<[_world c := ObjWorld (World_setCollisionObjects [] W1)]> h2);
               next := n;
               trace := ((t ++ flat_map (fun c => [Detach c; Destroy c]) A) ++ map Destroy B)
                        ++ flat_map (body_events h) (reverse (m_collisionObjects w));
               self := c |})).
  { unfold finalize_collision_objects.
    step (world_Ok {| heap := h2; next := n;
         trace := (t ++ flat_map (fun c => [Detach c; Destroy c]) A) ++ map Destroy B;
         self := c |} W1 Hn Hh2w).
    rewrite (for_down_objects (m_collisionObjects w) _ W1); simpl; try done.
    - by rewrite (body_resources_ext h h2), (body_events_ext h h2).
    - intros o Ho. rewrite Hos2 by by apply elem_of_reverse. by apply Hobj.
    - by rewrite (body_resources_ext h h2).
    - rewrite (body_resources_ext h h2) by done. fold C. intros q Hq.
      destruct (Hlive q (HinC q Hq)) as [? ?]. split_and!; try done.
      + intros ->. apply (HdC _ Hq). in_apps.
      + by rewrite HC2. }
  step H3. clear H3.
  set (W3 := World_setCollisionObjects [] W1).
  set (h3 := free_all C (<[_world c := ObjWorld W3]> h2)).
  assert (Hh3 : ∀ q, q ∉ A -> q ∉ B -> q ∉ C -> q ≠ _world c -> h3 !! q = h !! q).
  { intros q HqA HqB HqC Hqw. unfold h3. rewrite free_all_lookup.
    case_decide; [done|]. rewrite lookup_insert_ne by done. by apply Hh2. }
  assert (Hh3w : h3 !! _world c = Some (ObjWorld W3)).
  { unfold h3. rewrite free_all_lookup. case_decide as Hin.
    - exfalso. apply (HdC _ Hin). in_apps.
    - by rewrite lookup_insert_eq. }
  (* the shapes *)
  set (t3 := ((t ++ flat_map (fun c => [Detach c; Destroy c]) A) ++ map Destroy B)
             ++ flat_map (body_events h) (reverse (m_collisionObjects w))).
  assert (H4 : finalize_shapes {| heap := h3; next := n; trace := t3; self := c |} =
    Ok (tt, {| heap := free_all D h3; next := n; trace := t3 ++ map Destroy D;
               self := set__shapes [] c |})).
  { assert (HlD : ∀ q, q ∈ D -> q ≠ NULL ∧ is_Some (h3 !! q)).
    { intros q Hq. destruct (Hlive q (HinD q Hq)) as [? ?]. split; [done|].
      rewrite Hh3; [done|..].
      + intros HqA. apply (HdA _ HqA). in_apps.
      + intros HqB. apply (HdB _ HqB). in_apps.
      + intros HqC. apply (HdC _ HqC). in_apps.
      + intros ->. apply (HdD _ Hq). in_apps. }
    unfold finalize_shapes. unfold this at 1. unfold bind at 1. simpl.
    by rewrite (bind_Ok _ _ _ _ _ (for_up_shapes D []
      {| heap := h3; next := n; trace := t3; self := c |} eq_refl HndD HlD)). }
  step H4. clear H4.
  set (h4 := free_all D h3).
  assert (Hh4 : ∀ q, q ∈ F -> q ≠ _world c -> h4 !! q = h !! q).
  { intros q Hq Hqw. unfold h4. rewrite free_all_lookup. case_decide as Hin.
    - exfalso. by apply (HdD _ Hin).
    - apply Hh3; try done.
      + intros HqA. apply (HdA _ HqA). in_apps.
      + intros HqB. apply (HdB _ HqB). in_apps.
      + intros HqC. apply (HdC _ HqC). in_apps. }
  assert (Hh4w : h4 !! _world c = Some (ObjWorld W3)).
  { unfold h4. rewrite free_all_lookup. case_decide as Hin; [|done].
    exfalso. by apply (HdD _ Hin). }
  (* the world and its components *)
  apply NoDup_cons in HndF as [Hf1 HndF].
  apply NoDup_cons in HndF as [Hf2 HndF].
  apply NoDup_cons in HndF as [Hf3 HndF].
  apply NoDup_cons in HndF as [Hf4 _].
  assert (Hs : _solver c ≠ NULL ∧ is_Some (h !! _solver c))
    by (apply Hlive, HinF; subst F; in_apps).
  assert (Hp : _overlappingPairCache c ≠ NULL ∧ is_Some (h !! _overlappingPairCache c))
    by (apply Hlive, HinF; subst F; in_apps).
  assert (Hdi : _dispatcher c ≠ NULL ∧ is_Some (h !! _dispatcher c))
    by (apply Hlive, HinF; subst F; in_apps).
  assert (Hcc : _collisionConfiguration c ≠ NULL ∧ is_Some (h !! _collisionConfiguration c))
    by (apply Hlive, HinF; subst F; in_apps).
  unfold this at 1. unfold bind at 1. simpl.
  rewrite (bind_Ok _ _ _ _ _ (delete_Ok (_world c) h4 _ _ _ Hn
             ltac:(by rewrite Hh4w))).
  unfold assign at 1. unfold bind at 1. unfold this at 1. unfold bind at 1. simpl.
  destruct Hs as [Hs0 Hsl], Hp as [Hp0 Hpl], Hdi as [Hdi0 Hdil], Hcc as [Hcc0 Hccl].
  rewrite !elem_of_cons in Hf1. rewrite !elem_of_cons in Hf2.
  rewrite !elem_of_cons in Hf3. rewrite !elem_of_cons in Hf4.
  assert (HsF : _solver c ∈ F) by (subst F; in_apps).
  assert (HpF : _overlappingPairCache c ∈ F) by (subst F; in_apps).
  assert (HdF : _dispatcher c ∈ F) by (subst F; in_apps).
  assert (HcF : _collisionConfiguration c ∈ F) by (subst F; in_apps).
  assert (Hl1 : is_Some (base.delete (_world c) h4 !! _solver c)).
  { rewrite lookup_delete_ne by tauto. rewrite Hh4; [done..|]. intros Heq. symmetry in Heq. tauto. }
  rewrite (bind_Ok _ _ _ _ _ (delete_Ok (_solver c) _ _ _ _ Hs0 Hl1)).
  unfold assign at 1. unfold bind at 1. unfold this at 1. unfold bind at 1. simpl.
  assert (Hl2 : is_Some (base.delete (_solver c) (base.delete (_world c) h4)
                           !! _overlappingPairCache c)).
  { rewrite lookup_delete_ne by tauto. rewrite lookup_delete_ne by tauto.
    rewrite Hh4; [done..|]. intros Heq. symmetry in Heq. tauto. }
  rewrite (bind_Ok _ _ _ _ _ (delete_Ok (_overlappingPairCache c) _ _ _ _ Hp0 Hl2)).
  unfold assign at 1. unfold bind at 1. unfold this at 1. unfold bind at 1. simpl.
  assert (Hl3 : is_Some (base.delete (_overlappingPairCache c)
            (base.delete (_solver c) (base.delete (_world c) h4)) !! _dispatcher c)).
  { rewrite lookup_delete_ne by tauto. rewrite lookup_delete_ne by tauto.
    rewrite lookup_delete_ne by tauto.
    rewrite Hh4; [done..|]. intros Heq. symmetry in Heq. tauto. }
  rewrite (bind_Ok _ _ _ _ _ (delete_Ok (_dispatcher c) _ _ _ _ Hdi0 Hl3)).
  unfold assign at 1. unfold bind at 1. unfold this at 1. unfold bind at 1. simpl.
  assert (Hl4 : is_Some (base.delete (_dispatcher c) (base.delete (_overlappingPairCache c)
            (base.delete (_solver c) (base.delete (_world c) h4)))
              !! _collisionConfiguration c)).
  { rewrite lookup_delete_ne by tauto. rewrite lookup_delete_ne by tauto.
    rewrite lookup_delete_ne by tauto. rewrite lookup_delete_ne by tauto.
    rewrite Hh4; [done..|]. intros Heq. symmetry in Heq. tauto. }
  rewrite (bind_Ok _ _ _ _ _ (delete_Ok (_collisionConfiguration c) _ _ _ _ Hcc0 Hl4)).
  unfold assign. do 2 f_equal. f_equal.
  - rewrite !app_assoc. rewrite free_all_app. fold F. simpl. do 4 f_equal.
    unfold h4, h3, h2, h1.
    rewrite <- !free_all_app.
    rewrite !free_all_delete. rewrite delete_insert_eq.
    rewrite <- !free_all_delete. rewrite free_all_app. rewrite !free_all_delete.
    rewrite delete_insert_eq. rewrite <- !free_all_delete. 
    rewrite <- !free_all_app. by rewrite <- !app_assoc.
  - unfold teardown, t3. simpl. fold A B D.
    rewrite <- !app_assoc. simpl. done.
Qed.

End Teardown.

Section Creation.
Context `{E : Engine}.

Lemma succ_not_null (n : N) : N.succ n ≠ NULL.
Proof. unfold NULL. lia. Qed.

Lemma wf_is_fresh s w : wf s w -> fresh s.
Proof.
  intros H. split; [|apply (wf_fresh _ _ H)].
  assert (Hs : is_Some (heap s !! _world (self s)))
    by (rewrite (wf_world _ _ H); by eexists).
  destruct (wf_fresh _ _ H _ Hs). lia.
Qed.

Lemma wf_world_lt s w : wf s w -> (0 < _world (self s) < next s)%N.
Proof.
  intros H. apply (wf_fresh _ _ H). exists (ObjWorld w). exact (wf_world _ _ H).
Qed.

Lemma wf_world_not_null s w : wf s w -> _world (self s) ≠ NULL.
Proof.
  intros H. apply (wf_live _ _ H). unfold owned. in_apps.
Qed.

(** Building a typed constraint and registering it: the one path all five
    creation operations take. *)
Lemma construct_and_register t s w :
  _world (self s) ≠ NULL ->
  heap s !! _world (self s) = Some (ObjWorld w) ->
  fresh s ->
  (let* constraint := PhysicsConstraint_new t in
   addConstraint constraint ;; ret constraint) s =
    Ok (N.succ (next s),
        {| heap := <[_world (self s) := ObjWorld (World_addConstraint (next s) w)]>
                     (<[N.succ (next s) :=
                          ObjPhysicsConstraint {| typed := t; _constraint := next s |}]>
                        (<[next s := ObjTypedConstraint t]> (heap s)));
           next := N.succ (N.succ (next s));
           trace := trace s;
           self := set__constraints (_constraints (self s) ++ [N.succ (next s)]) (self s) |}).
Proof.
  destruct s as [h n t0 c]. simpl. intros Hn Hw [Hpos Hf].
  assert (Hlt : (0 < _world c < n)%N) by (apply Hf; exists (ObjWorld w); exact Hw).
  unfold PhysicsConstraint_new, new. rewrite !bind_bind. unfold bind at 1. simpl.
  unfold bind at 1. simpl.
  unfold addConstraint. rewrite !bind_bind. unfold load at 1. unfold bind at 1. simpl.
  rewrite (is_null_false _ (succ_not_null n)), lookup_insert_eq.
  unfold world_addConstraint. simpl. rewrite !bind_bind.
  erewrite bind_Ok; [| apply (world_call_Ok _ _ w); simpl; [done|] ].
  2: { rewrite !lookup_insert_ne by lia. done. }
  done.
Qed.

Lemma create_eq t :
  create t = (let* constraint := PhysicsConstraint_new t in
              addConstraint constraint ;; ret constraint).
Proof. by destruct t. Qed.

End Creation.

Section Preservation.
Context `{E : Engine}.

Lemma perm_shuffle {A} (a b c d f : list A) :
  a ++ b ++ c ++ d ++ f ≡ₚ (a ++ b ++ d) ++ c ++ f.
Proof.
  rewrite (app_assoc c d f), (Permutation_app_comm c d), <- (app_assoc d c f).
  by rewrite <- !app_assoc.
Qed.

Lemma wf_owned_lt s w p : wf s w -> p ∈ owned s w -> (0 < p < next s)%N.
Proof. intros H Hp. apply (wf_fresh _ _ H). by apply (wf_live _ _ H). Qed.

Lemma wf_object_owned s w o :
  o ∈ m_collisionObjects w ->
  o ∈ flat_map (body_resources (heap s)) (reverse (m_collisionObjects w)).
Proof.
  intros Ho. apply elem_of_flat_map. exists o.
  split; [by apply elem_of_reverse|apply elem_of_body_resources].
Qed.

Lemma wf_object_not_world s w o :
  wf s w -> o ∈ m_collisionObjects w -> o ≠ _world (self s).
Proof.
  intros H Ho ->. pose proof (wf_nodup _ _ H) as Hnd. unfold owned in Hnd.
  apply NoDup_app in Hnd as (_ & _ & Hnd).
  apply NoDup_app in Hnd as (_ & _ & Hnd).
  apply NoDup_app in Hnd as (_ & Hd & _).
  apply (Hd _ (wf_object_owned s w _ Ho)). in_apps.
Qed.

(** What is owned after a step that keeps the old objects, the controller's
    pointers and the world's collision objects, and adds new addresses to
    the world's constraints or to the registries. *)
Lemma owned_extend (news : list addr) s w s' w' :
  wf s w ->
  _world (self s') = _world (self s) ->
  _solver (self s') = _solver (self s) ->
  _overlappingPairCache (self s') = _overlappingPairCache (self s) ->
  _dispatcher (self s') = _dispatcher (self s) ->
  _collisionConfiguration (self s') = _collisionConfiguration (self s) ->
  m_collisionObjects w' = m_collisionObjects w ->
  (∀ p, p ≠ _world (self s) -> (p < next s)%N -> heap s' !! p = heap s !! p) ->
  reverse (m_constraints w') ++ _constraints (self s') ++ _shapes (self s')
    ≡ₚ news ++ reverse (m_constraints w) ++ _constraints (self s) ++ _shapes (self s) ->
  owned s' w' ≡ₚ news ++ owned s w.
Proof.
  intros H Hpw Hps Hpp Hpd Hpc Hos Hold Hperm.
  assert (HC : flat_map (body_resources (heap s')) (reverse (m_collisionObjects w))
               = flat_map (body_resources (heap s)) (reverse (m_collisionObjects w))).
  { apply body_resources_ext. intros o Ho. rewrite elem_of_reverse in Ho. apply Hold.
    - exact (wf_object_not_world s w o H Ho).
    - apply (wf_owned_lt s w); [done|]. unfold owned.
      pose proof (wf_object_owned s w o Ho). in_apps. }
  unfold owned. rewrite Hpw, Hps, Hpp, Hpd, Hpc, Hos, HC.
  rewrite perm_shuffle, Hperm.
  rewrite (perm_shuffle (reverse (m_constraints w))).
  by rewrite <- !app_assoc.
Qed.

(** A step that keeps the old objects, keeps the controller's pointers and
    the world's collision objects, and adds fresh objects to the world's
    constraints or to the registries, leads from a fit state to a fit
    state. *)
Lemma wf_extend (news : list addr) s w s' w' :
  wf s w ->
  _world (self s') = _world (self s) ->
  _solver (self s') = _solver (self s) ->
  _overlappingPairCache (self s') = _overlappingPairCache (self s) ->
  _dispatcher (self s') = _dispatcher (self s) ->
  _collisionConfiguration (self s') = _collisionConfiguration (self s) ->
  m_collisionObjects w' = m_collisionObjects w ->
  heap s' !! _world (self s) = Some (ObjWorld w') ->
  (∀ p, p ≠ _world (self s) -> (p < next s)%N -> heap s' !! p = heap s !! p) ->
  NoDup news ->
  (∀ p, p ∈ news -> (next s <= p)%N ∧ is_Some (heap s' !! p)) ->
  reverse (m_constraints w') ++ _constraints (self s') ++ _shapes (self s')
    ≡ₚ news ++ reverse (m_constraints w) ++ _constraints (self s) ++ _shapes (self s) ->
  (∀ p, is_Some (heap s' !! p) -> (0 < p < next s')%N) ->
  wf s' w'.
Proof.
  intros H Hpw Hps Hpp Hpd Hpc Hos Hw' Hold Hnd Hnew Hperm Hfresh.
  pose proof (owned_extend news s w s' w' H Hpw Hps Hpp Hpd Hpc Hos Hold Hperm) as Hown.
  assert (Hlt : ∀ p, p ∈ owned s w -> (0 < p < next s)%N)
    by (intros p; apply wf_owned_lt; done).
  split.
  - by rewrite Hpw.
  - rewrite Hown. apply NoDup_app. split_and!; [done| |apply (wf_nodup _ _ H)].
    intros p Hp Hp'. destruct (Hnew p Hp) as [? _]. destruct (Hlt p Hp'). lia.
  - intros p Hp. rewrite Hown in Hp. apply elem_of_app in Hp as [Hp|Hp].
    + destruct (Hnew p Hp) as [? ?]. split; [|done].
      pose proof (wf_is_fresh _ _ H) as [? _]. unfold NULL. lia.
    + destruct (wf_live _ _ H p Hp) as [? ?]. split; [done|].
      destruct (decide (p = _world (self s))) as [->|Hne].
      * rewrite Hw'. by eexists.
      * rewrite Hold; [done..|]. by destruct (Hlt p Hp).
  - intros o Ho. rewrite Hos in Ho.
    destruct (wf_objects _ _ H o Ho) as (rb & m & Hm).
    exists rb, m. rewrite <- Hm. apply Hold.
    + exact (wf_object_not_world s w o H Ho).
    + apply (wf_owned_lt s w); [done|]. unfold owned.
      pose proof (wf_object_owned s w o Ho). in_apps.
  - done.
Qed.

(** Such a step leaves nothing unowned if nothing was unowned before and
    the new objects are all it adds. *)
Lemma tight_extend (news : list addr) s w s' w' :
  wf s w -> tight s w ->
  _world (self s') = _world (self s) ->
  _solver (self s') = _solver (self s) ->
  _overlappingPairCache (self s') = _overlappingPairCache (self s) ->
  _dispatcher (self s') = _dispatcher (self s) ->
  _collisionConfiguration (self s') = _collisionConfiguration (self s) ->
  m_collisionObjects w' = m_collisionObjects w ->
  (∀ p, p ≠ _world (self s) -> (p < next s)%N -> heap s' !! p = heap s !! p) ->
  reverse (m_constraints w') ++ _constraints (self s') ++ _shapes (self s')
    ≡ₚ news ++ reverse (m_constraints w) ++ _constraints (self s) ++ _shapes (self s) ->
  (∀ p, is_Some (heap s' !! p) -> p ∈ news ∨ is_Some (heap s !! p)) ->
  tight s' w'.
Proof.
  intros H Ht Hpw Hps Hpp Hpd Hpc Hos Hold Hperm Hdom p Hp.
  rewrite (owned_extend news s w s' w' H Hpw Hps Hpp Hpd Hpc Hos Hold Hperm).
  apply elem_of_app. destruct (Hdom p Hp) as [?|Hl]; [by left|right]. by apply Ht.
Qed.

(** *** Creation of constraints *)

Lemma create_Ok t s w :
  wf s w ->
  create t s =
    Ok (N.succ (next s),
        {| heap := <[_world (self s) := ObjWorld (World_addConstraint (next s) w)]>
                     (<[N.succ (next s) :=
                          ObjPhysicsConstraint {| typed := t; _constraint := next s |}]>
                        (<[next s := ObjTypedConstraint t]> (heap s)));
           next := N.succ (N.succ (next s));
           trace := trace s;
           self := set__constraints (_constraints (self s) ++ [N.succ (next s)]) (self s) |}).
Proof.
  intros H. rewrite create_eq.
  apply construct_and_register;
    [exact (wf_world_not_null _ _ H)|exact (wf_world _ _ H)|exact (wf_is_fresh _ _ H)].
Qed.

Lemma create_wf t s w p s' :
  wf s w -> create t s = Ok (p, s') ->
  wf s' (World_addConstraint (next s) w).
Proof.
  intros H Hc. rewrite (create_Ok t s w H) in Hc. injection Hc as <- <-.
  pose proof (wf_is_fresh _ _ H) as [Hpos Hf].
  pose proof (wf_world_lt _ _ H) as Hlt.
  apply (wf_extend [next s; N.succ (next s)] s w); simpl; try done.
  - by rewrite lookup_insert_eq.
  - intros q Hq Hql. rewrite !lookup_insert_ne; [done|lia..|done].
  - apply NoDup_cons. split; [|apply NoDup_singleton].
    rewrite list_elem_of_singleton. lia.
  - intros q Hq. apply elem_of_cons in Hq as [->|Hq].
    + split; [lia|]. rewrite !lookup_insert_ne by lia. rewrite lookup_insert_eq.
      by eexists.
    + apply list_elem_of_singleton in Hq as ->. split; [lia|].
      rewrite lookup_insert_ne by lia. rewrite lookup_insert_eq. by eexists.
  - rewrite reverse_snoc. simpl. apply Permutation_skip.
    rewrite !app_assoc. rewrite <- (app_assoc _ [N.succ (next s)]).
    rewrite (Permutation_app_comm [N.succ (next s)]).
    rewrite !app_assoc. rewrite <- Permutation_cons_append. done.
  - intros q [o Hq].
    destruct (decide (q = _world (self s))) as [->|H1]; [lia|].
    destruct (decide (q = N.succ (next s))) as [->|H2]; [lia|].
    destruct (decide (q = next s)) as [->|H3]; [lia|].
    rewrite !lookup_insert_ne in Hq by done.
    destruct (Hf q) as [? ?]; [by eexists|]. lia.
Qed.

(** *** Creation of shapes *)

Lemma getBox_Ok min max scale s :
  getBox min max scale s =
    Ok (next s,
        {| heap := <[next s := ObjBoxShape
                  (btVector3.mk
                     (halfExtent (btVector3.x scale) (Vector3.x max) (Vector3.x min))
                     (halfExtent (btVector3.y scale) (Vector3.y max) (Vector3.y min))
                     (halfExtent (btVector3.z scale) (Vector3.z max) (Vector3.z min)))]>
                  (heap s);
           next := N.succ (next s);
           trace := trace s;
           self := set__shapes (_shapes (self s) ++ [next s]) (self s) |}).
Proof. done. Qed.

Lemma getSphere_Ok radius scale s :
  getSphere radius scale s =
    Ok (next s,
        {| heap := <[next s := ObjSphereShape (fmul (uniformScale scale) radius)]> (heap s);
           next := N.succ (next s);
           trace := trace s;
           self := set__shapes (_shapes (self s) ++ [next s]) (self s) |}).
Proof. done. Qed.

Lemma new_shape_wf o s w :
  wf s w ->
  wf {| heap := <[next s := o]> (heap s); next := N.succ (next s); trace := trace s;
        self := set__shapes (_shapes (self s) ++ [next s]) (self s) |} w.
Proof.
  intros H. pose proof (wf_is_fresh _ _ H) as [Hpos Hf].
  pose proof (wf_world_lt _ _ H) as Hlt.
  apply (wf_extend [next s] s w); simpl; try done.
  - rewrite lookup_insert_ne by lia. apply (wf_world _ _ H).
  - intros q Hq Hql. rewrite lookup_insert_ne; [done|lia].
  - apply NoDup_singleton.
  - intros q Hq. apply list_elem_of_singleton in Hq as ->. split; [lia|].
    rewrite lookup_insert_eq. by eexists.
  - rewrite !app_assoc. by rewrite <- Permutation_cons_append.
  - intros q [o' Hq].
    destruct (decide (q = next s)) as [->|H3]; [lia|].
    rewrite lookup_insert_ne in Hq by done.
    destruct (Hf q) as [? ?]; [by eexists|]. lia.
Qed.

(** *** Changes to the world alone *)

Lemma world_change_wf (f : World -> World) s w :
  (∀ w, m_constraints (f w) = m_constraints w) ->
  (∀ w, m_collisionObjects (f w) = m_collisionObjects w) ->
  wf s w ->
  wf {| heap := <[_world (self s) := ObjWorld (f w)]> (heap s); next := next s;
        trace := trace s; self := self s |} (f w).
Proof.
  intros Hc Ho H. pose proof (wf_is_fresh _ _ H) as [Hpos Hf].
  apply (wf_extend [] s w); simpl; try done.
  - by rewrite lookup_insert_eq.
  - intros q Hq Hql. by rewrite lookup_insert_ne.
  - apply NoDup_nil_2.
  - intros q Hq. by apply elem_of_nil in Hq.
  - by rewrite Hc.
  - intros q [o' Hq].
    destruct (decide (q = _world (self s))) as [->|H3].
    + exact (wf_world_lt _ _ H).
    + rewrite lookup_insert_ne in Hq by done. apply Hf. by eexists.
Qed.

Lemma update_Ok elapsedTime s w :
  _world (self s) ≠ NULL ->
  heap s !! _world (self s) = Some (ObjWorld w) ->
  update elapsedTime s =
    Ok (tt, {| heap := <[_world (self s) :=
                           ObjWorld (World_stepSimulation (seconds elapsedTime) 10 w)]> (heap s);
               next := next s; trace := trace s; self := self s |}).
Proof. intros Hn Hw. unfold update. by apply world_call_Ok. Qed.

Lemma setGravity_Ok gravity s w :
  _world (self s) ≠ NULL ->
  heap s !! _world (self s) = Some (ObjWorld w) ->
  setGravity gravity s =
    Ok (tt, {| heap := <[_world (self s) :=
                 ObjWorld (World_setGravity
                   (btVector3.mk (Vector3.x gravity) (Vector3.y gravity) (Vector3.z gravity))
                   w)]> (heap s);
               next := next s; trace := trace s;
               self := set__gravity
                 (btVector3.mk (Vector3.x gravity) (Vector3.y gravity) (Vector3.z gravity))
                 (self s) |}).
Proof.
  intros Hn Hw. unfold setGravity.
  rewrite !assign_bind, this_bind. cbn [self heap next trace _world set__gravity].
  rewrite (is_null_false _ Hn).
  by rewrite (world_call_Ok _ _ w).
Qed.

Lemma setGravity_idle gravity s :
  _world (self s) = NULL ->
  setGravity gravity s =
    Ok (tt, {| heap := heap s; next := next s; trace := trace s;
               self := set__gravity
                 (btVector3.mk (Vector3.x gravity) (Vector3.y gravity) (Vector3.z gravity))
                 (self s) |}).
Proof.
  intros Hn. unfold setGravity.
  rewrite !assign_bind, this_bind. cbn [self heap next trace _world set__gravity].
  by rewrite Hn.
Qed.

(** *** Initialization *)

Lemma initialize_Ok s :
  initialize s =
    Ok (tt, {| heap := <[N.succ (N.succ (N.succ (N.succ (next s)))) :=
                           ObjWorld (initial_world (next s) (self s))]>
                 (<[N.succ (N.succ (N.succ (next s))) := ObjSolver]>
                 (<[N.succ (N.succ (next s)) := ObjBroadphase]>
                 (<[N.succ (next s) := ObjDispatcher (next s)]>
                 (<[next s := ObjCollisionConfiguration]> (heap s)))));
               next := N.succ (N.succ (N.succ (N.succ (N.succ (next s)))));
               trace := trace s;
               self := initialized (next s) (self s) |}).
Proof.
  unfold initialize.
  repeat (rewrite ?new_bind, ?assign_bind, ?this_bind;
          cbn [self heap next trace _world _gravity _dispatcher _overlappingPairCache
               _solver _collisionConfiguration set__world set__solver
               set__overlappingPairCache set__dispatcher set__collisionConfiguration]).
  erewrite world_call_Ok;
    [|apply succ_not_null|cbn [self heap _world]; apply lookup_insert_eq].
  cbn [self heap next trace _world]. by rewrite insert_insert_eq.
Qed.

Lemma initialize_wf s :
  idle s -> wf {| heap := <[N.succ (N.succ (N.succ (N.succ (next s)))) :=
                           ObjWorld (initial_world (next s) (self s))]>
                 (<[N.succ (N.succ (N.succ (next s))) := ObjSolver]>
                 (<[N.succ (N.succ (next s)) := ObjBroadphase]>
                 (<[N.succ (next s) := ObjDispatcher (next s)]>
                 (<[next s := ObjCollisionConfiguration]> (heap s)))));
               next := N.succ (N.succ (N.succ (N.succ (N.succ (next s)))));
               trace := trace s;
               self := initialized (next s) (self s) |}
          (initial_world (next s) (self s)).
Proof.
  intros ((Hpos & Hf) & Hnd & Hlive).
  assert (Hlt : ∀ p, p ∈ _constraints (self s) ++ _shapes (self s) -> (0 < p < next s)%N).
  { intros p Hp. apply Hf. by apply Hlive. }
  split; simpl.
  - apply lookup_insert_eq.
  - unfold owned. simpl. rewrite app_assoc. apply NoDup_app. split_and!; [done| |].
    + intros p Hp Hin. specialize (Hlt p Hp). rewrite !elem_of_cons in Hin.
      rewrite elem_of_nil in Hin. lia.
    + repeat (apply NoDup_cons; split;
              [rewrite ?elem_of_cons, elem_of_nil; lia|]).
      apply NoDup_nil_2.
  - unfold owned. simpl. intros p Hp. rewrite app_assoc in Hp.
    apply elem_of_app in Hp as [Hp|Hp].
    + destruct (Hlive p Hp) as [? ?]. split; [done|]. specialize (Hlt p Hp).
      by rewrite !lookup_insert_ne by lia.
    + rewrite !elem_of_cons, elem_of_nil in Hp.
      split; [unfold NULL; lia|].
      destruct Hp as [->|[->|[->|[->|[->|[]]]]]];
        rewrite ?lookup_insert_eq; try by eexists.
      all: rewrite lookup_insert_ne by lia; rewrite ?lookup_insert_eq; try by eexists.
      all: rewrite lookup_insert_ne by lia; rewrite ?lookup_insert_eq; try by eexists.
      all: rewrite lookup_insert_ne by lia; rewrite ?lookup_insert_eq; try by eexists.
      all: rewrite lookup_insert_ne by lia; rewrite ?lookup_insert_eq; by eexists.
  - intros o Ho. by apply elem_of_nil in Ho.
  - intros p [o Hp].
    destruct (decide (next s <= p)%N) as [Hge|Hlt'].
    + destruct (decide (N.succ (N.succ (N.succ (N.succ (N.succ (next s))))) <= p)%N);
        [|lia].
      rewrite !lookup_insert_ne in Hp by lia.
      destruct (Hf p) as [? ?]; [by eexists|]. lia.
    + rewrite !lookup_insert_ne in Hp by lia.
      destruct (Hf p) as [? ?]; [by eexists|]. lia.
Qed.

(** *** Sessions *)

Lemma State_new_idle : idle State_new.
Proof.
  split_and!.
  - split; [done|]. intros p [o Hp]. unfold State_new in Hp. cbn [heap] in Hp.
    by rewrite lookup_empty in Hp.
  - apply NoDup_nil_2.
  - intros p Hp. by apply elem_of_nil in Hp.
Qed.

Lemma create_tight t s w :
  wf s w -> tight s w ->
  tight {| heap := <[_world (self s) := ObjWorld (World_addConstraint (next s) w)]>
                     (<[N.succ (next s) :=
                          ObjPhysicsConstraint {| typed := t; _constraint := next s |}]>
                        (<[next s := ObjTypedConstraint t]> (heap s)));
           next := N.succ (N.succ (next s));
           trace := trace s;
           self := set__constraints (_constraints (self s) ++ [N.succ (next s)]) (self s) |}
        (World_addConstraint (next s) w).
Proof.
  intros H Ht. pose proof (wf_world_lt _ _ H) as Hlt.
  apply (tight_extend [next s; N.succ (next s)] s w); simpl; try done.
  - intros q Hq Hql. rewrite !lookup_insert_ne; [done|lia..|done].
  - rewrite reverse_snoc. simpl. apply Permutation_skip.
    rewrite !app_assoc. rewrite <- (app_assoc _ [N.succ (next s)]).
    rewrite (Permutation_app_comm [N.succ (next s)]).
    rewrite !app_assoc. by rewrite <- Permutation_cons_append.
  - intros q Hq. rewrite !elem_of_cons.
    destruct (decide (q = next s)) as [->|H1]; [tauto|].
    destruct (decide (q = N.succ (next s))) as [->|H2]; [tauto|].
    right. destruct (decide (q = _world (self s))) as [->|H3].
    + rewrite (wf_world _ _ H). by eexists.
    + by rewrite !lookup_insert_ne in Hq.
Qed.

Lemma new_shape_tight o s w :
  wf s w -> tight s w ->
  tight {| heap := <[next s := o]> (heap s); next := N.succ (next s); trace := trace s;
           self := set__shapes (_shapes (self s) ++ [next s]) (self s) |} w.
Proof.
  intros H Ht. pose proof (wf_world_lt _ _ H) as Hlt.
  apply (tight_extend [next s] s w); simpl; try done.
  - intros q Hq Hql. rewrite lookup_insert_ne; [done|lia].
  - rewrite !app_assoc. by rewrite <- Permutation_cons_append.
  - intros q Hq. rewrite list_elem_of_singleton.
    destruct (decide (q = next s)) as [->|H1]; [tauto|].
    right. by rewrite lookup_insert_ne in Hq.
Qed.

Lemma world_change_tight (f : World -> World) s w :
  (∀ w, m_constraints (f w) = m_constraints w) ->
  (∀ w, m_collisionObjects (f w) = m_collisionObjects w) ->
  wf s w -> tight s w ->
  tight {| heap := <[_world (self s) := ObjWorld (f w)]> (heap s); next := next s;
           trace := trace s; self := self s |} (f w).
Proof.
  intros Hc Ho H Ht.
  apply (tight_extend [] s w); simpl; try done.
  - intros q Hq Hql. by rewrite lookup_insert_ne.
  - by rewrite Hc.
  - intros q Hq. right. destruct (decide (q = _world (self s))) as [->|H3].
    + rewrite (wf_world _ _ H). by eexists.
    + by rewrite lookup_insert_ne in Hq.
Qed.

(** Every call keeps a fit state fit and leaves nothing unowned; only a
    creation of a constraint extends the constraint registry. *)
Lemma perform_fit c s w :
  wf s w -> tight s w ->
  ∃ s' w',
    perform c s = Ok (tt, s') ∧ wf s' w' ∧ tight s' w'
    ∧ length (_constraints (self s')) = length (_constraints (self s)) + creations [c].
Proof.
  intros H Ht.
  pose proof (wf_world_not_null _ _ H) as Hn. pose proof (wf_world _ _ H) as Hw.
  destruct c as [g|t|mn mx sc|r sc|v st i|d wd ht|e| |]; cbn [perform creations].
  - eexists _, (World_setGravity
                  (btVector3.mk (Vector3.x g) (Vector3.y g) (Vector3.z g)) w).
    split; [apply (setGravity_Ok g s w Hn Hw)|].
    split_and!.
    + apply (wf_extend [] s w); simpl; try done.
      * by rewrite lookup_insert_eq.
      * intros q Hq Hql. by rewrite lookup_insert_ne.
      * apply NoDup_nil_2.
      * intros q Hq. by apply elem_of_nil in Hq.
      * intros q [o' Hq]. destruct (decide (q = _world (self s))) as [->|H3].
        -- exact (wf_world_lt _ _ H).
        -- rewrite lookup_insert_ne in Hq by done. apply (wf_fresh _ _ H). by eexists.
    + apply (tight_extend [] s w); simpl; try done.
      * intros q Hq Hql. by rewrite lookup_insert_ne.
      * intros q Hq. right. destruct (decide (q = _world (self s))) as [->|H3].
        -- rewrite Hw. by eexists.
        -- by rewrite lookup_insert_ne in Hq.
    + simpl. lia.
  - eexists _, _. rewrite (bind_Ok _ _ _ _ _ (create_Ok t s w H)).
    split; [reflexivity|]. split_and!.
    + exact (create_wf t s w _ _ H (create_Ok t s w H)).
    + by apply create_tight.
    + simpl. rewrite length_app. simpl. lia.
  - eexists _, _. rewrite (bind_Ok _ _ _ _ _ (getBox_Ok mn mx sc s)).
    split; [reflexivity|]. split_and!.
    + by apply new_shape_wf.
    + by apply new_shape_tight.
    + simpl. lia.
  - eexists _, _. rewrite (bind_Ok _ _ _ _ _ (getSphere_Ok r sc s)).
    split; [reflexivity|]. split_and!.
    + by apply new_shape_wf.
    + by apply new_shape_tight.
    + simpl. lia.
  - exists s, w. split_and!; try done; simpl; lia.
  - exists s, w. split_and!; try done; simpl; lia.
  - eexists _, _. split; [apply (update_Ok e s w Hn Hw)|]. split_and!.
    + by apply (world_change_wf (World_stepSimulation (seconds e) 10)).
    + by apply (world_change_tight (World_stepSimulation (seconds e) 10)).
    + simpl. lia.
  - exists s, w. split_and!; try done; simpl; lia.
  - exists s, w. split_and!; try done; simpl; lia.
Qed.

Lemma perform_all_fit cs : ∀ s w,
  wf s w -> tight s w ->
  ∃ s' w',
    perform_all cs s = Ok (tt, s') ∧ wf s' w' ∧ tight s' w'
    ∧ length (_constraints (self s')) = length (_constraints (self s)) + creations cs.
Proof.
  induction cs as [|c cs IH]; intros s w H Ht.
  - exists s, w. split_and!; try done; simpl; lia.
  - destruct (perform_fit c s w H Ht) as (s1 & w1 & Hc & H1 & Ht1 & Hl1).
    destruct (IH s1 w1 H1 Ht1) as (s2 & w2 & Hcs & H2 & Ht2 & Hl2).
    exists s2, w2. cbn [perform_all]. rewrite (bind_Ok _ _ _ _ _ Hc).
    split_and!; try done. rewrite Hl2, Hl1. simpl.
    destruct c; simpl; lia.
Qed.

(** Every session on a newly constructed controller returns and ends in a
    fit state in which nothing is unowned. *)
Lemma session_fit cs :
  ∃ s w,
    session cs State_new = Ok (tt, s) ∧ wf s w ∧ tight s w
    ∧ length (_constraints (self s)) = creations cs.
Proof.
  pose proof (initialize_wf State_new State_new_idle) as H0.
  match type of H0 with wf ?s0 ?w0 => assert (Ht0 : tight s0 w0) end.
  { intros p [o Hp]. unfold owned. simpl in *.
    rewrite !elem_of_cons.
    destruct (decide (p = 5%N)) as [->|H5]; [tauto|].
    destruct (decide (p = 4%N)) as [->|H4]; [tauto|].
    destruct (decide (p = 3%N)) as [->|H3]; [tauto|].
    destruct (decide (p = 2%N)) as [->|H2]; [tauto|].
    destruct (decide (p = 1%N)) as [->|H1]; [tauto|].
    rewrite !lookup_insert_ne in Hp by done. by rewrite lookup_empty in Hp. }
  destruct (perform_all_fit cs _ _ H0 Ht0) as (s & w & Hcs & H & Ht & Hl).
  exists s, w. unfold session. rewrite (bind_Ok _ _ _ _ _ (initialize_Ok State_new)).
  split; [exact Hcs|]. split; [exact H|]. split; [exact Ht|]. exact Hl.
Qed.

(** [finalize] after any session: it returns, the store is empty (every
    object created since [initialize] is destroyed), the shape registry is
    empty and the five owning pointers are null; the constraint registry is
    what it was, one entry for each constraint created. *)
Lemma finalize_session cs :
  ∃ s s',
    session cs State_new = Ok (tt, s)
    ∧ finalize s = Ok (tt, s')
    ∧ heap s' = ∅
    ∧ self s' = finalized (self s)
    ∧ length (_constraints (self s')) = creations cs.
Proof.
  destruct (session_fit cs) as (s & w & Hs & H & Ht & Hl).
  eexists s, _. split; [exact Hs|]. split; [apply (finalize_wf s w H)|].
  cbn [heap self finalized _constraints]. split; [|split; [reflexivity|exact Hl]].
  apply map_eq. intros p. rewrite free_all_lookup, lookup_empty.
  case_decide as Hin; [done|].
  destruct (heap s !! p) as [o|] eqn:Hp; [|done].
  exfalso. apply Hin. apply Ht. by eexists.
Qed.

End Preservation.

Section Registration.
Context `{E : Engine}.






End Registration.

(** * The lifecycle on sample runs *)

Section SampleRuns.
#[local] Existing Instance stub_engine.

Lemma live_wf : wf Sample.live Sample.live_world.
Proof.
  unfold Sample.live, run. rewrite initialize_Ok.
  exact (initialize_wf State_new State_new_idle).
Qed.

End SampleRuns.

(** * Teardown order *)

Section TeardownOrder.
Context `{E : Engine}.


End TeardownOrder.

Section TeardownRuns.
#[local] Existing Instance stub_engine.


(** Creating C1, C2, C3 after [initialize] and then finalizing: the native
    constraints sit at addresses 6, 8 and 10, their wrappers at 7, 9 and 11.
    C3 is detached and destroyed first, then C2, then C1; the wrappers and
    the world with its components follow. *)
Example three_constraints_teardown :
  (fun r => match r with Ok (_, s) => Some (trace s) | Fault _ => None end)
    ((initialize ;;
      let* c1 := create Sample.C1 in
      let* c2 := create Sample.C2 in
      let* c3 := create Sample.C3 in
      finalize) State_new)
  = Some [Detach 10%N; Destroy 10%N; Detach 8%N; Destroy 8%N; Detach 6%N; Destroy 6%N;
          Destroy 7%N; Destroy 9%N; Destroy 11%N;
          Destroy 5%N; Destroy 4%N; Destroy 3%N; Destroy 2%N; Destroy 1%N].
Proof. vm_compute. reflexivity. Qed.

(** Collision objects go from the last-added to the first-added; the motion
    state of a rigid body goes before the body is taken out of the world and
    destroyed. *)
Example bodies_teardown :
  (fun r => match r with
            | Ok (_, s) => Some (trace s, map_to_list (heap s))
            | Fault _ => None
            end) (finalize Sample.with_bodies)
  = Some ([Unlink 9%N; Destroy 9%N; Unlink 8%N; Destroy 8%N;
           Destroy 6%N; Unlink 7%N; Destroy 7%N;
           Destroy 5%N; Destroy 4%N; Destroy 3%N; Destroy 2%N; Destroy 1%N], []).
Proof. vm_compute. reflexivity. Qed.

(** C2.  After [initialize], one shape and one constraint, [finalize]
    returns with every object destroyed, the shape registry empty and the five
    owning pointers null, but the constraint registry still holds the address
    of the destroyed wrapper; a second [initialize]/[finalize] cycle then
    deletes that address again. *)
Theorem finalize_keeps_constraint_registry :
  let lifecycle : M unit :=
    initialize ;;
    let* box := getBox (Sample.vec 0 0 0) (Sample.vec 2 4 6) (Sample.bvec 1 1 1) in
    let* c1 := createFixedConstraint 100%N Sample.identity (Sample.vec 0 0 0)
                                     101%N Sample.identity (Sample.vec 0 1 0) in
    finalize in
  (∃ s, lifecycle State_new = Ok (tt, s)
        ∧ heap s = ∅
        ∧ _shapes (self s) = []
        ∧ _world (self s) = NULL
        ∧ _solver (self s) = NULL
        ∧ _overlappingPairCache (self s) = NULL
        ∧ _dispatcher (self s) = NULL
        ∧ _collisionConfiguration (self s) = NULL
        ∧ _constraints (self s) = [8%N])
  ∧ (lifecycle ;; initialize ;; finalize) State_new = Fault (InvalidPointer 8%N).
Proof.
  split.
  - eexists. split; [vm_compute; reflexivity|]. by vm_compute.
  - vm_compute. reflexivity.
Qed.

End TeardownRuns.

(** * Scalars *)

Section FloatOrder.

Lemma SFltb_rank a b :
  is_nan a = false -> is_nan b = false ->
  SFltb a b = true ↔ lex_lt (rank a) (rank b).
Proof.
  intros Ha Hb. unfold SFltb, SFcompare, lex_lt, rank.
  destruct a as [[]|[]| |[] m1 e1], b as [[]|[]| |[] m2 e2];
    try discriminate; simpl;
    try (split; [intros; lia|intros; done]);
    try (split; [done|intros; lia]).
  - change (Pos.compare_cont Eq m1 m2) with (Pos.compare m1 m2).
    destruct (Z.compare_spec e1 e2), (Pos.compare_spec m1 m2); simpl;
      split; intros; try done; try lia.
  - change (Pos.compare_cont Eq m1 m2) with (Pos.compare m1 m2).
    destruct (Z.compare_spec e1 e2), (Pos.compare_spec m1 m2); simpl;
      split; intros; try done; try lia.
Qed.

Lemma SFleb_rank a b :
  is_nan a = false -> is_nan b = false ->
  SFleb a b = true ↔ lex_le (rank a) (rank b).
Proof.
  intros Ha Hb. unfold SFleb, SFcompare, lex_le, rank.
  destruct a as [[]|[]| |[] m1 e1], b as [[]|[]| |[] m2 e2];
    try discriminate; simpl;
    try (split; [intros; lia|intros; done]);
    try (split; [done|intros; lia]).
  - change (Pos.compare_cont Eq m1 m2) with (Pos.compare m1 m2).
    destruct (Z.compare_spec e1 e2), (Pos.compare_spec m1 m2); simpl;
      split; intros; try done; try lia.
  - change (Pos.compare_cont Eq m1 m2) with (Pos.compare m1 m2).
    destruct (Z.compare_spec e1 e2), (Pos.compare_spec m1 m2); simpl;
      split; intros; try done; try lia.
Qed.

Lemma lex_not_lt a b : ¬ lex_lt a b -> lex_le b a.
Proof. destruct a as [[a1 a2] a3], b as [[b1 b2] b3]. unfold lex_lt, lex_le. lia. Qed.

Lemma lex_lt_le a b : lex_lt a b -> lex_le a b.
Proof. destruct a as [[a1 a2] a3], b as [[b1 b2] b3]. unfold lex_lt, lex_le. lia. Qed.

Lemma lex_le_refl a : lex_le a a.
Proof. destruct a as [[a1 a2] a3]. unfold lex_le. lia. Qed.

Lemma lex_le_trans a b c : lex_le a b -> lex_le b c -> lex_le a c.
Proof.
  destruct a as [[a1 a2] a3], b as [[b1 b2] b3], c as [[c1 c2] c3].
  unfold lex_le. lia.
Qed.

Lemma flt_fle a b :
  is_nan a = false -> is_nan b = false -> flt a b = true -> fle a b = true.
Proof.
  unfold flt, fle. intros Ha Hb H. apply SFleb_rank; [done..|].
  apply lex_lt_le. by apply SFltb_rank.
Qed.

Lemma not_flt_fle a b :
  is_nan a = false -> is_nan b = false -> flt a b = false -> fle b a = true.
Proof.
  unfold flt, fle. intros Ha Hb H. apply SFleb_rank; [done..|].
  apply lex_not_lt. intros H'%SFltb_rank; [|done..]. congruence.
Qed.

Lemma fle_refl a : is_nan a = false -> fle a a = true.
Proof. unfold fle. intros Ha. apply SFleb_rank; [done..|]. apply lex_le_refl. Qed.

Lemma fle_trans a b c :
  is_nan a = false -> is_nan b = false -> is_nan c = false ->
  fle a b = true -> fle b c = true -> fle a c = true.
Proof.
  unfold fle. intros Ha Hb Hc H1 H2.
  apply SFleb_rank in H1; [|done..]. apply SFleb_rank in H2; [|done..].
  apply SFleb_rank; [done..|]. by apply (lex_le_trans _ (rank b)).
Qed.

(** [uniformScale] is the maximum of the three components of an ordered
    scale: it is one of them and none of them is above it. *)
Lemma uniformScale_max scale :
  ordered scale ->
  (uniformScale scale = btVector3.x scale
   ∨ uniformScale scale = btVector3.y scale
   ∨ uniformScale scale = btVector3.z scale)
  ∧ fle (btVector3.x scale) (uniformScale scale) = true
  ∧ fle (btVector3.y scale) (uniformScale scale) = true
  ∧ fle (btVector3.z scale) (uniformScale scale) = true.
Proof.
  intros (Hx & Hy & Hz). unfold uniformScale. cbv zeta.
  destruct (flt (btVector3.x scale) (btVector3.y scale)) eqn:Hxy.
  - destruct (flt (btVector3.y scale) (btVector3.z scale)) eqn:Hyz.
    + split_and!; [tauto| | |].
      * apply (fle_trans _ (btVector3.y scale)); try done; by apply flt_fle.
      * by apply flt_fle.
      * by apply fle_refl.
    + split_and!; [tauto| | |].
      * by apply flt_fle.
      * by apply fle_refl.
      * by apply not_flt_fle.
  - destruct (flt (btVector3.x scale) (btVector3.z scale)) eqn:Hxz.
    + split_and!; [tauto| | |].
      * by apply flt_fle.
      * apply (fle_trans _ (btVector3.x scale)); try done;
          [by apply not_flt_fle|by apply flt_fle].
      * by apply fle_refl.
    + split_and!; [tauto| | |].
      * by apply fle_refl.
      * by apply not_flt_fle.
      * by apply not_flt_fle.
Qed.

End FloatOrder.

(** ** Signs and symmetries *)

Section FloatSigns.

Lemma binary_round_aux_opp prec emax sx mx ex lx :
  binary_round_aux prec emax (negb sx) mx ex lx
  = SFopp (binary_round_aux prec emax sx mx ex lx).
Proof.
  unfold binary_round_aux.
  destruct (shr_fexp prec emax mx ex lx) as [mrs' e'].
  destruct (shr_fexp prec emax _ e' loc_Exact) as [mrs'' e''].
  destruct (shr_m mrs'') as [|m|m]; try done.
  by destruct (Z.leb e'' (Z.sub emax prec)).
Qed.

Lemma binary_round_opp prec emax sx mx ex :
  binary_round prec emax (negb sx) mx ex = SFopp (binary_round prec emax sx mx ex).
Proof.
  unfold binary_round.
  destruct (shl_align mx ex _) as [mz ez]. apply binary_round_aux_opp.
Qed.

Lemma binary_normalize_opp prec emax m e sz :
  binary_normalize prec emax (- m) e (negb sz)
  = SFopp (binary_normalize prec emax m e sz).
Proof.
  destruct m as [|m|m]; simpl; [done| |].
  - apply (binary_round_opp prec emax false).
  - apply (binary_round_opp prec emax true).
Qed.

Lemma binary_normalize_abs prec emax m e s1 s2 :
  SFabs (binary_normalize prec emax m e s1) = SFabs (binary_normalize prec emax m e s2).
Proof. by destruct m. Qed.

Lemma SFabs_opp x : SFabs (SFopp x) = SFabs x.
Proof. by destruct x. Qed.

Lemma convert_opp prec emax x :
  convert prec emax (SFopp x) = SFopp (convert prec emax x).
Proof.
  destruct x as [s|s| |s m e]; try done. simpl.
  rewrite <- binary_normalize_opp. by destruct s.
Qed.

Lemma SFmul_opp_l prec emax x y :
  SFmul prec emax (SFopp x) y = SFopp (SFmul prec emax x y).
Proof.
  destruct x as [sx|sx| |sx mx ex], y as [sy|sy| |sy my ey]; simpl; try done;
    try (by destruct sx, sy).
  rewrite <- binary_round_aux_opp. by destruct sx, sy.
Qed.

Lemma SFsub_swap_abs prec emax x y :
  SFabs (SFsub prec emax x y) = SFabs (SFsub prec emax y x).
Proof.
  destruct x as [sx|sx| |sx mx ex], y as [sy|sy| |sy my ey]; simpl; try done;
    try (by destruct sx, sy).
  rewrite (Z.min_comm ey ex).
  set (a := cond_Zopp sx _). set (b := cond_Zopp sy _).
  replace (b - a)%Z with (- (a - b))%Z by lia.
  rewrite (binary_normalize_opp prec emax (a - b) _ true). rewrite SFabs_opp.
  apply binary_normalize_abs.
Qed.

Lemma halfExtent_swap scale a b : halfExtent scale a b = halfExtent scale b a.
Proof.
  unfold halfExtent, abs, fsub. by rewrite (SFsub_swap_abs prec32 emax32 a b).
Qed.

Lemma halfExtent_opp scale a b :
  halfExtent (SFopp scale) a b = SFopp (halfExtent scale a b).
Proof.
  unfold halfExtent, btScalar_of, float_of_double, double_of_float, dmul.
  by rewrite convert_opp, !SFmul_opp_l, convert_opp.
Qed.

Lemma flt_irrefl a : flt a a = false.
Proof.
  unfold flt, SFltb, SFcompare.
  destruct a as [[]|[]| |[] m e]; try done.
  - rewrite Z.compare_refl. change (Pos.compare_cont Eq m m) with (Pos.compare m m).
    by rewrite Pos.compare_refl.
  - rewrite Z.compare_refl. change (Pos.compare_cont Eq m m) with (Pos.compare m m).
    by rewrite Pos.compare_refl.
Qed.

Lemma flt_nan_l a b : is_nan a = true -> flt a b = false.
Proof. by destruct a. Qed.

Lemma flt_nan_r a b : is_nan b = true -> flt a b = false.
Proof. by destruct a, b. Qed.

(** *** Signs *)

Lemma binary_round_aux_sign prec emax sx mx ex lx :
  sign_of (binary_round_aux prec emax sx mx ex lx) = None
  ∨ sign_of (binary_round_aux prec emax sx mx ex lx) = Some sx.
Proof.
  unfold binary_round_aux.
  destruct (shr_fexp prec emax mx ex lx) as [mrs' e'].
  destruct (shr_fexp prec emax _ e' loc_Exact) as [mrs'' e''].
  destruct (shr_m mrs'') as [|m|m]; [by right| |by left].
  destruct (Z.leb e'' (Z.sub emax prec)); by right.
Qed.

Lemma binary_round_sign prec emax sx mx ex :
  sign_of (binary_round prec emax sx mx ex) = None
  ∨ sign_of (binary_round prec emax sx mx ex) = Some sx.
Proof.
  unfold binary_round. destruct (shl_align mx ex _) as [mz ez].
  apply binary_round_aux_sign.
Qed.

Lemma convert_sign prec emax x :
  sign_of (convert prec emax x) = None ∨ sign_of (convert prec emax x) = sign_of x.
Proof.
  destruct x as [s|s| |s m e]; try (by right).
  unfold convert, binary_normalize. destruct s; cbn [cond_Zopp Z.opp].
  - apply (binary_round_sign prec emax true).
  - apply (binary_round_sign prec emax false).
Qed.

Lemma SFmul_sign prec emax x y sx sy :
  sign_of x = Some sx -> sign_of y = Some sy ->
  sign_of (SFmul prec emax x y) = None
  ∨ sign_of (SFmul prec emax x y) = Some (xorb sx sy).
Proof.
  destruct x as [s1|s1| |s1 m1 e1], y as [s2|s2| |s2 m2 e2]; simpl;
    intros [= <-] [= <-]; try (by right); try (by left).
  apply binary_round_aux_sign.
Qed.

Lemma SFmul_nan_l prec emax x y : sign_of x = None -> sign_of (SFmul prec emax x y) = None.
Proof. by destruct x, y. Qed.

Lemma SFmul_nan_r prec emax x y : sign_of y = None -> sign_of (SFmul prec emax x y) = None.
Proof. by destruct x, y. Qed.

Lemma abs_sign a : sign_of (abs a) = None ∨ sign_of (abs a) = Some false.
Proof. destruct a; simpl; first [by right|by left]. Qed.

Lemma lit_0_5_sign : sign_of lit_0_5 = Some false.
Proof. vm_compute. reflexivity. Qed.

End FloatSigns.

(** ** Rounding, exact values and the largest component *)

Section Rounding.

(** *** Checks over ranges *)

Lemma all_from_spec k : ∀ from f,
  Sample.all_from k from f = true ->
  ∀ e, (from <= e < from + Z.of_nat k)%Z -> f e = true.
Proof.
  induction k as [|k IH]; intros from f H e He; [lia|].
  cbn [Sample.all_from] in H. apply andb_prop in H as [H0 H].
  destruct (decide (e = from)) as [->|Hne]; [done|].
  apply (IH (from + 1)%Z f H). lia.
Qed.

Lemma all_within_spec r f :
  (0 <= r)%Z -> Grid.all_within r f = true -> ∀ e, (- r <= e <= r)%Z -> f e = true.
Proof.
  intros Hr H e He. apply (all_from_spec _ _ _ H). lia.
Qed.

(** Every elapsed time from -20 s to 20 s gives the rounded time step. *)
Lemma seconds_rounded_all :
  Grid.all_within 20000 (fun e => millis_rounded e (seconds e)) = true.
Proof. vm_compute. reflexivity. Qed.



Lemma seconds_rounded_spec e :
  (-20000 <= e <= 20000)%Z -> millis_rounded e (seconds e) = true.
Proof.
  intros He.
  exact (all_within_spec 20000 _ ltac:(lia) seconds_rounded_all e He).
Qed.



(** *** The largest component *)






End Rounding.

(** * Operations without a world *)

Section WithoutWorld.
Context `{E : Engine}.

Lemma create_without_world t s :
  _world (self s) = NULL -> create t s = Fault NullPointerDereference.
Proof.
  intros Hn. rewrite create_eq. unfold PhysicsConstraint_new.
  rewrite !bind_bind, !new_bind. unfold addConstraint. rewrite !bind_bind.
  unfold load at 1. unfold bind at 1. cbn [heap next trace self].
  rewrite (is_null_false _ (succ_not_null _)), lookup_insert_eq.
  unfold world_addConstraint. rewrite !bind_bind.
  erewrite bind_Fault; [done|]. apply world_call_null. exact Hn.
Qed.

(** C3, as the code has it.  With no world live (before [initialize] or
    after [finalize]) nothing checks the precondition: [update] and the
    constraint-creation operations go through the null world pointer, while
    [getBox] and [getSphere], which do not use the world, succeed and register
    the new shape, and [getTriangleMesh] and [getHeightfield] return null as
    they always do. *)
Theorem misuse_without_world s :
  _world (self s) = NULL ->
  (∀ elapsedTime, update elapsedTime s = Fault NullPointerDereference)
  ∧ (∀ a ra ta b rb tb,
       createFixedConstraint a ra ta b rb tb s = Fault NullPointerDereference)
  ∧ (∀ a ra ta b rb tb,
       createGenericConstraint a ra ta b rb tb s = Fault NullPointerDereference)
  ∧ (∀ a ra ta b rb tb,
       createHingeConstraint a ra ta b rb tb s = Fault NullPointerDereference)
  ∧ (∀ a ta b tb,
       createSocketConstraint a ta b tb s = Fault NullPointerDereference)
  ∧ (∀ a ra ta b rb tb,
       createSpringConstraint a ra ta b rb tb s = Fault NullPointerDereference)
  ∧ (∀ min max scale,
       getBox min max scale s =
         shape_registered
           (ObjBoxShape
              (btVector3.mk
                 (halfExtent (btVector3.x scale) (Vector3.x max) (Vector3.x min))
                 (halfExtent (btVector3.y scale) (Vector3.y max) (Vector3.y min))
                 (halfExtent (btVector3.z scale) (Vector3.z max) (Vector3.z min)))) s)
  ∧ (∀ radius scale,
       getSphere radius scale s =
         shape_registered (ObjSphereShape (fmul (uniformScale scale) radius)) s)
  ∧ (∀ vertexData vertexPositionStride indexData (indexFormat : unit),
       getTriangleMesh vertexData vertexPositionStride indexData indexFormat s
       = Ok (NULL, s))
  ∧ (∀ data width height, getHeightfield data width height s = Ok (NULL, s)).
Proof.
  intros Hn. split_and!.
  - intros e. unfold update. by apply world_call_null.
  - intros a ra ta b rb tb. exact (create_without_world (Fixed a ra ta b rb tb) s Hn).
  - intros a ra ta b rb tb. exact (create_without_world (Generic a ra ta b rb tb) s Hn).
  - intros a ra ta b rb tb. exact (create_without_world (Hinge a ra ta b rb tb) s Hn).
  - intros a ta b tb. exact (create_without_world (Socket a ta b tb) s Hn).
  - intros a ra ta b rb tb. exact (create_without_world (Spring a ra ta b rb tb) s Hn).
  - intros min max scale. apply getBox_Ok.
  - intros radius scale. apply getSphere_Ok.
  - done.
  - done.
Qed.

End WithoutWorld.

Section WithoutWorldRuns.
#[local] Existing Instance stub_engine.

Lemma misuse_without_world_witness :
  (∀ elapsedTime, update elapsedTime State_new = Fault NullPointerDereference)
  ∧ (∀ a ra ta b rb tb,
       createFixedConstraint a ra ta b rb tb State_new = Fault NullPointerDereference)
  ∧ (∀ a ra ta b rb tb,
       createGenericConstraint a ra ta b rb tb State_new = Fault NullPointerDereference)
  ∧ (∀ a ra ta b rb tb,
       createHingeConstraint a ra ta b rb tb State_new = Fault NullPointerDereference)
  ∧ (∀ a ta b tb,
       createSocketConstraint a ta b tb State_new = Fault NullPointerDereference)
  ∧ (∀ a ra ta b rb tb,
       createSpringConstraint a ra ta b rb tb State_new = Fault NullPointerDereference)
  ∧ (∀ min max scale,
       getBox min max scale State_new =
         shape_registered
           (ObjBoxShape
              (btVector3.mk
                 (halfExtent (btVector3.x scale) (Vector3.x max) (Vector3.x min))
                 (halfExtent (btVector3.y scale) (Vector3.y max) (Vector3.y min))
                 (halfExtent (btVector3.z scale) (Vector3.z max) (Vector3.z min))))
           State_new)
  ∧ (∀ radius scale,
       getSphere radius scale State_new =
         shape_registered (ObjSphereShape (fmul (uniformScale scale) radius)) State_new)
  ∧ (∀ vertexData vertexPositionStride indexData (indexFormat : unit),
       getTriangleMesh vertexData vertexPositionStride indexData indexFormat State_new
       = Ok (NULL, State_new))
  ∧ (∀ data width height,
       getHeightfield data width height State_new = Ok (NULL, State_new)).
Proof. apply (misuse_without_world State_new). reflexivity. Defined.

(** C3, as the spec has it, fails on a newly constructed controller: none of
    the three calls is refused.  [getBox] returns a shape; [update] and the
    creation of a constraint end in the access through the null world
    pointer. *)
Lemma misuse_not_refused :
  ¬ refused (getBox (Sample.vec 0 0 0) (Sample.vec 2 4 6) (Sample.bvec 1 1 1) State_new)
  ∧ ¬ refused (update 16 State_new)
  ∧ ¬ refused (create Sample.C1 State_new).
Proof.
  split_and!.
  - intros (f & Hf & _). rewrite getBox_Ok in Hf. discriminate Hf.
  - intros (f & Hf & Hne). unfold update in Hf.
    rewrite (world_call_null _ State_new eq_refl) in Hf. by injection Hf as <-.
  - intros (f & Hf & Hne).
    rewrite (create_without_world Sample.C1 State_new eq_refl) in Hf.
    by injection Hf as <-.
Qed.

Example misuse_outcomes :
  (∃ s, getBox (Sample.vec 0 0 0) (Sample.vec 2 4 6) (Sample.bvec 1 1 1) State_new
        = Ok (1%N, s) ∧ _shapes (self s) = [1%N])
  ∧ update 16 State_new = Fault NullPointerDereference
  ∧ create Sample.C1 State_new = Fault NullPointerDereference.
Proof.
  split_and!.
  - eexists. split; [reflexivity|]. reflexivity.
  - reflexivity.
  - vm_compute. reflexivity.
Qed.

End WithoutWorldRuns.

(** * Stepping the simulation *)

Section Stepping.
Context `{E : Engine}.

(** C4.  With a world live, [update(elapsedTime)] returns, and what it does
    is one call of the world's stepping operation with at most 10 sub-steps
    and the time step [(float)elapsedTime * 0.001], which is
    [elapsedTime / 1000] seconds rounded to single precision: for elapsed
    times from -20 s to 20 s the time step is a number within a relative
    error of 2^-24 of [elapsedTime / 1000], and it is [elapsedTime / 1000]
    itself when that is a binary fraction.  The world performs the number of
    sub-steps the time step requires when that is at most 10, and 10
    otherwise. *)
Theorem update_steps_world elapsedTime s w :
  _world (self s) ≠ NULL ->
  heap s !! _world (self s) = Some (ObjWorld w) ->
  ∃ s' w' timeStep,
    update elapsedTime s = Ok (tt, s')
    ∧ heap s' !! _world (self s') = Some (ObjWorld w')
    ∧ w' = World_stepSimulation timeStep 10 w
    ∧ timeStep = float_of_double (dmul (double_of_float (float_of_long elapsedTime))
                                       (double_literal 1 1000))
    ∧ ((-20000 <= elapsedTime <= 20000)%Z -> millis_rounded elapsedTime timeStep = true)
    ∧ (let required := subStepsRequired (m_dynamics w) timeStep in
       m_dynamics w' = advance (m_gravity w) timeStep (Nat.min required 10) (m_dynamics w)
       ∧ m_subSteps w' = m_subSteps w + Nat.min required 10
       ∧ m_subSteps w' - m_subSteps w <= 10
       ∧ (required <= 10 -> m_subSteps w' = m_subSteps w + required)
       ∧ (10 < required -> m_subSteps w' = m_subSteps w + 10)).
Proof.
  intros Hn Hw.
  eexists _, _, (seconds elapsedTime).
  split; [apply (update_Ok elapsedTime s w Hn Hw)|].
  cbn [heap self]. split; [apply lookup_insert_eq|].
  split; [reflexivity|]. split; [reflexivity|].
  split; [apply seconds_rounded_spec|].
  unfold World_stepSimulation. cbn [m_dynamics m_subSteps].
  change (Z.to_nat 10) with 10.
  set (required := subStepsRequired (m_dynamics w) (seconds elapsedTime)).
  split_and!; try done; lia.
Qed.

(** C10.  With a world live, [update] changes nothing but the world's
    simulation: the controller (stored gravity, both registries, the five
    owning pointers) is as before, so are all other objects, the trace and
    the next address, and within the world its gravity, its constraints, its
    collision objects and its four components. *)
Theorem update_frame elapsedTime s w :
  _world (self s) ≠ NULL ->
  heap s !! _world (self s) = Some (ObjWorld w) ->
  ∃ s' w',
    update elapsedTime s = Ok (tt, s')
    ∧ self s' = self s
    ∧ next s' = next s
    ∧ trace s' = trace s
    ∧ (∀ p, p ≠ _world (self s) -> heap s' !! p = heap s !! p)
    ∧ heap s' !! _world (self s) = Some (ObjWorld w')
    ∧ m_gravity w' = m_gravity w
    ∧ m_constraints w' = m_constraints w
    ∧ m_collisionObjects w' = m_collisionObjects w
    ∧ m_collisionConfiguration w' = m_collisionConfiguration w
    ∧ m_dispatcher w' = m_dispatcher w
    ∧ m_pairCache w' = m_pairCache w
    ∧ m_constraintSolver w' = m_constraintSolver w.
Proof.
  intros Hn Hw.
  eexists _, (World_stepSimulation (seconds elapsedTime) 10 w).
  split; [apply (update_Ok elapsedTime s w Hn Hw)|].
  cbn [heap self next trace]. split_and!; try done.
  - intros p Hp. by rewrite lookup_insert_ne.
  - apply lookup_insert_eq.
Qed.

End Stepping.

Section SteppingRuns.
#[local] Existing Instance stub_engine.

Lemma live_world_lookup :
  _world (self Sample.live) ≠ NULL
  ∧ heap Sample.live !! _world (self Sample.live) = Some (ObjWorld Sample.live_world).
Proof. split; [by vm_compute|]. vm_compute. reflexivity. Qed.

Lemma update_steps_world_witness :
  ∃ s' w' timeStep,
    update 1000 Sample.live = Ok (tt, s')
    ∧ heap s' !! _world (self s') = Some (ObjWorld w')
    ∧ w' = World_stepSimulation timeStep 10 Sample.live_world
    ∧ millis_rounded 1000 timeStep = true
    ∧ m_subSteps w'
      = m_subSteps Sample.live_world
        + Nat.min (subStepsRequired (m_dynamics Sample.live_world) timeStep) 10.
Proof.
  destruct (update_steps_world 1000 Sample.live Sample.live_world)
    as (s' & w' & t & Hu & Hw & Hw' & _ & Hr & Hsteps).
  - by vm_compute.
  - vm_compute. reflexivity.
  - cbv zeta in Hsteps. destruct Hsteps as (_ & Hs & _).
    exists s', w', t. split; [exact Hu|]. split; [exact Hw|]. split; [exact Hw'|].
    split; [apply Hr; lia|exact Hs].
Defined.

(** C4, as the spec has it, fails for an elapsed time of 16 ms: the world is
    advanced by 8589935 / 2^29 seconds, which is not 16 / 1000 seconds. *)
Lemma update_not_exact :
  ∃ s' w' timeStep,
    update 16 Sample.live = Ok (tt, s')
    ∧ heap s' !! _world (self s') = Some (ObjWorld w')
    ∧ w' = World_stepSimulation timeStep 10 Sample.live_world
    ∧ to_frac timeStep = (8589935, 2 ^ 29)%Z
    ∧ (8589935 * 1000 ≠ 16 * 2 ^ 29)%Z.
Proof.
  exists (run (update 16) Sample.live),
         (World_stepSimulation (seconds 16) 10 Sample.live_world), (seconds 16).
  split; [vm_compute; reflexivity|]. split; [vm_compute; reflexivity|].
  split; [reflexivity|]. split; [vm_compute; reflexivity|]. by vm_compute.
Qed.

Lemma update_frame_witness :
  ∃ s' w',
    update 16 Sample.live = Ok (tt, s')
    ∧ self s' = self Sample.live
    ∧ next s' = next Sample.live
    ∧ trace s' = trace Sample.live
    ∧ (∀ p, p ≠ _world (self Sample.live) -> heap s' !! p = heap Sample.live !! p)
    ∧ heap s' !! _world (self Sample.live) = Some (ObjWorld w')
    ∧ m_gravity w' = m_gravity Sample.live_world
    ∧ m_constraints w' = m_constraints Sample.live_world
    ∧ m_collisionObjects w' = m_collisionObjects Sample.live_world
    ∧ m_collisionConfiguration w' = m_collisionConfiguration Sample.live_world
    ∧ m_dispatcher w' = m_dispatcher Sample.live_world
    ∧ m_pairCache w' = m_pairCache Sample.live_world
    ∧ m_constraintSolver w' = m_constraintSolver Sample.live_world.
Proof.
  apply (update_frame 16 Sample.live Sample.live_world).
  - by vm_compute.
  - vm_compute. reflexivity.
Defined.

(** One second asks the stand-in engine for 60 sub-steps and gets 10; a
    16 ms frame asks for one and gets it. *)
Example update_sub_steps :
  (fun r => match r with
            | Ok (_, s) => match heap s !! _world (self s) with
                           | Some (ObjWorld w) => Some (m_subSteps w)
                           | _ => None
                           end
            | Fault _ => None
            end) ((initialize ;; update 1000 ;; update 16) State_new) = Some 11.
Proof. vm_compute. reflexivity. Qed.

(** The time step of some frame times: 0 ms is 0 s, 1000 ms is exactly 1 s,
    500 ms is exactly 0.5 s, and 16 ms is the single-precision number
    nearest to 0.016 s. *)
Example seconds_values :
  seconds 0 = S754_zero false
  ∧ seconds 1000 = S754_finite false 8388608 (-23)
  ∧ seconds 500 = S754_finite false 8388608 (-24)
  ∧ seconds 16 = S754_finite false 8589935 (-29).
Proof. by vm_compute. Qed.

(** For frame times up to two seconds the time step is within a relative
    error of 2^-24 of [elapsedTime / 1000]. *)
Lemma seconds_accurate e : (0 <= e <= 2000)%Z -> Sample.accurate e = true.
Proof.
  intros He. apply (all_from_spec 2001 0); [|lia]. vm_compute. reflexivity.
Qed.

End SteppingRuns.

(** * Gravity *)

Section Gravity.
Context `{E : Engine}.

(** C5.  The gravity of a newly constructed controller is (0, -9.8, 0), the
    second component being the single-precision number for -9.8.
    [setGravity] stores its argument, with no world and with a live one, and
    with a live world the world's gravity becomes the argument at once.
    [initialize] gives the new world the stored gravity, so a gravity set
    before [initialize] is the world's gravity after it. *)
Theorem gravity_default_and_propagation :
  _gravity PhysicsController_new =
    btVector3.mk (S754_zero false) (S754_finite true 10276045 (-20)) (S754_zero false)
  ∧ (∀ gravity s,
       _world (self s) = NULL ->
       ∃ s', setGravity gravity s = Ok (tt, s')
             ∧ _gravity (self s') = stored gravity
             ∧ _world (self s') = NULL
             ∧ heap s' = heap s)
  ∧ (∀ gravity s w,
       _world (self s) ≠ NULL ->
       heap s !! _world (self s) = Some (ObjWorld w) ->
       ∃ s' w', setGravity gravity s = Ok (tt, s')
                ∧ _gravity (self s') = stored gravity
                ∧ heap s' !! _world (self s') = Some (ObjWorld w')
                ∧ m_gravity w' = stored gravity)
  ∧ (∀ s,
       ∃ s' w', initialize s = Ok (tt, s')
                ∧ _world (self s') ≠ NULL
                ∧ heap s' !! _world (self s') = Some (ObjWorld w')
                ∧ m_gravity w' = _gravity (self s)
                ∧ _gravity (self s') = _gravity (self s))
  ∧ (∀ gravity,
       ∃ s1 s2 w', setGravity gravity State_new = Ok (tt, s1)
                   ∧ initialize s1 = Ok (tt, s2)
                   ∧ heap s2 !! _world (self s2) = Some (ObjWorld w')
                   ∧ m_gravity w' = stored gravity).
Proof.
  split_and!.
  - by vm_compute.
  - intros gravity s Hn. eexists. split; [apply (setGravity_idle gravity s Hn)|].
    by cbn [self heap _gravity _world set__gravity].
  - intros gravity s w Hn Hw. eexists _, _.
    split; [apply (setGravity_Ok gravity s w Hn Hw)|].
    cbn [self heap _gravity _world set__gravity].
    split; [done|]. split; [apply lookup_insert_eq|done].
  - intros s. eexists _, _. split; [apply initialize_Ok|].
    cbn [self heap _gravity _world initialized].
    split; [apply succ_not_null|]. split; [apply lookup_insert_eq|done].
  - intros gravity. eexists _, _, _.
    split; [apply (setGravity_idle gravity State_new eq_refl)|].
    split; [apply initialize_Ok|].
    cbn [self heap _gravity _world initialized].
    split; [apply lookup_insert_eq|done].
Qed.

End Gravity.

Section GravityRuns.
#[local] Existing Instance stub_engine.

Lemma gravity_default_and_propagation_witness :
  ∃ s' w', setGravity (Sample.vec 0 (-2) 0) Sample.live = Ok (tt, s')
           ∧ _gravity (self s') = Sample.bvec 0 (-2) 0
           ∧ heap s' !! _world (self s') = Some (ObjWorld w')
           ∧ m_gravity w' = Sample.bvec 0 (-2) 0.
Proof.
  destruct gravity_default_and_propagation as (_ & _ & H & _).
  apply (H (Sample.vec 0 (-2) 0) Sample.live Sample.live_world).
  - by vm_compute.
  - vm_compute. reflexivity.
Defined.

(** The default second component is the single-precision number nearest to
    -9.8: it is -10276045 / 2^20, within half a unit in the last place. *)
Example default_gravity_nearest :
  to_frac (btVector3.y (_gravity PhysicsController_new)) = (-10276045, 2 ^ 20)%Z
  ∧ (2 * Z.abs (10276045 * 10 - 98 * 2 ^ 20) <= 10)%Z.
Proof. split; [by vm_compute|]. by vm_compute. Qed.

End GravityRuns.

(** * Shapes *)

Section Shapes.
Context `{E : Engine}.



(** C9.  [getTriangleMesh] and [getHeightfield] return the null pointer for
    every input and leave the state as it was: nothing is created and
    nothing is registered. *)
Theorem unsupported_shapes_return_null :
  (∀ (IndexFormat : Type) vertexData vertexPositionStride indexData
     (indexFormat : IndexFormat) s,
     getTriangleMesh vertexData vertexPositionStride indexData indexFormat s
     = Ok (NULL, s))
  ∧ (∀ data width height s, getHeightfield data width height s = Ok (NULL, s)).
Proof. by split. Qed.

End Shapes.

Section ShapesRuns.
#[local] Existing Instance stub_engine.



(** The box and the sphere of the spec's examples, created after
    [initialize]: they sit at addresses 6 and 7 and the registry lists them
    in that order. *)
Example shapes_created :
  (fun r => match r with
            | Ok (ps, s) => Some (ps, heap s !! 6%N, heap s !! 7%N, _shapes (self s))
            | Fault _ => None
            end)
    ((initialize ;;
      let* box := getBox (Sample.vec 0 0 0) (Sample.vec 2 4 6) (Sample.bvec 1 1 1) in
      let* sphere := getSphere (Sample.f 1) (Sample.bvec 1 2 3) in
      ret (box, sphere)) State_new)
  = Some ((6%N, 7%N),
          Some (ObjBoxShape (Sample.bvec 1 2 3)),
          Some (ObjSphereShape (Sample.f 3)),
          [6%N; 7%N]).
Proof. vm_compute. reflexivity. Qed.

End ShapesRuns.

(** * Creation of constraints *)

Section Constraints.
Context `{E : Engine}.


End Constraints.

Section ConstraintsRuns.
#[local] Existing Instance stub_engine.


End ConstraintsRuns.

(** * Ownership over whole lifecycles *)

Section LifecycleLemmas.
Context `{E : Engine}.

Lemma finalize_null s :
  _world (self s) = NULL -> finalize s = Fault NullPointerDereference.
Proof.
  intros Hn. unfold finalize, finalize_world_constraints.
  rewrite !bind_bind. by rewrite (bind_Fault _ _ _ _ (world_null s Hn)).
Qed.

Lemma finalize_heap_empty s w :
  wf s w -> tight s w -> free_all (owned s w) (heap s) = ∅.
Proof.
  intros H Ht. apply map_eq. intros p. rewrite free_all_lookup, lookup_empty.
  case_decide as Hin; [done|].
  destruct (heap s !! p) as [o|] eqn:Hp; [|done].
  exfalso. apply Hin. apply Ht. by eexists.
Qed.

Lemma wf_registries s w p :
  wf s w -> p ∈ _constraints (self s) ++ _shapes (self s) -> p ∈ owned s w.
Proof. intros _ Hp. unfold owned. rewrite elem_of_app in Hp. in_apps. Qed.

Lemma wf_idle s w : wf s w -> idle s.
Proof.
  intros H. split_and!.
  - by apply (wf_is_fresh s w).
  - pose proof (wf_nodup _ _ H) as Hnd. unfold owned in Hnd.
    apply NoDup_app in Hnd as (_ & _ & Hnd).
    apply NoDup_app in Hnd as (Hc & Hd & Hnd).
    apply NoDup_app in Hnd as (_ & _ & Hnd).
    apply NoDup_app in Hnd as (Hs & _ & _).
    apply NoDup_app. split_and!; [done| |done].
    intros p Hp Hp'. apply (Hd p Hp). in_apps.
  - intros p Hp. apply (wf_live _ _ H). by apply wf_registries.
Qed.

Lemma initialize_tight s :
  (∀ p, is_Some (heap s !! p) -> p ∈ _constraints (self s) ++ _shapes (self s)) ->
  tight {| heap := <[N.succ (N.succ (N.succ (N.succ (next s)))) :=
                           ObjWorld (initial_world (next s) (self s))]>
                 (<[N.succ (N.succ (N.succ (next s))) := ObjSolver]>
                 (<[N.succ (N.succ (next s)) := ObjBroadphase]>
                 (<[N.succ (next s) := ObjDispatcher (next s)]>
                 (<[next s := ObjCollisionConfiguration]> (heap s)))));
               next := N.succ (N.succ (N.succ (N.succ (N.succ (next s)))));
               trace := trace s;
               self := initialized (next s) (self s) |}
        (initial_world (next s) (self s)).
Proof.
  intros Ht p Hp. unfold owned.
  cbn [self heap next _constraints _shapes initialized m_constraints m_collisionObjects
       initial_world World_setGravity World_new _world _solver _overlappingPairCache
       _dispatcher _collisionConfiguration] in *.
  rewrite reverse_nil. cbn [flat_map app].
  destruct (decide (p = N.succ (N.succ (N.succ (N.succ (next s)))))) as [->|H5];
    [in_apps|].
  destruct (decide (p = N.succ (N.succ (N.succ (next s))))) as [->|H4]; [in_apps|].
  destruct (decide (p = N.succ (N.succ (next s)))) as [->|H3]; [in_apps|].
  destruct (decide (p = N.succ (next s))) as [->|H2]; [in_apps|].
  destruct (decide (p = next s)) as [->|H1]; [in_apps|].
  rewrite !lookup_insert_ne in Hp by done.
  specialize (Ht p Hp). rewrite elem_of_app in Ht. in_apps.
Qed.

Lemma session_from_dormant cs s :
  dormant s ->
  ∃ s' w,
    session cs s = Ok (tt, s') ∧ wf s' w ∧ tight s' w
    ∧ length (_constraints (self s')) = length (_constraints (self s)) + creations cs.
Proof.
  intros (Hn & Hidle & Ht).
  pose proof (initialize_wf s Hidle) as H0.
  pose proof (initialize_tight s Ht) as Ht0.
  destruct (perform_all_fit cs _ _ H0 Ht0) as (s' & w & Hcs & H & Ht' & Hl).
  exists s', w. unfold session. rewrite (bind_Ok _ _ _ _ _ (initialize_Ok s)).
  split; [exact Hcs|]. split; [exact H|]. split; [exact Ht'|]. exact Hl.
Qed.

Lemma finalized_dormant s w :
  wf s w -> tight s w -> _constraints (self s) = [] ->
  dormant {| heap := free_all (owned s w) (heap s); next := next s;
             trace := trace s ++ teardown s w; self := finalized (self s) |}.
Proof.
  intros H Ht Hc. rewrite (finalize_heap_empty s w H Ht).
  pose proof (wf_is_fresh _ _ H) as [Hpos _].
  split_and!; cbn [self heap next finalized _world _constraints _shapes].
  - done.
  - split_and!; cbn [self heap next finalized _world _constraints _shapes].
    + split; cbn [heap next]; [done|]. intros p [o Hp]. by rewrite lookup_empty in Hp.
    + rewrite Hc. apply NoDup_nil_2.
    + rewrite Hc. intros p Hp. by apply elem_of_nil in Hp.
  - intros p [o Hp]. by rewrite lookup_empty in Hp.
Qed.

Lemma lifecycles_dormant css : ∀ s,
  Forall (fun cs => creations cs = 0) css ->
  dormant s -> _constraints (self s) = [] ->
  ∃ s', lifecycles css s = Ok (tt, s') ∧ dormant s' ∧ _constraints (self s') = []
        ∧ (css ≠ [] -> heap s' = ∅ ∧ _shapes (self s') = []).
Proof.
  induction css as [|cs css IH]; intros s Hall Hd Hc.
  - exists s. split_and!; done.
  - apply Forall_cons in Hall as [Hcs Hall].
    destruct (session_from_dormant cs s Hd) as (s1 & w1 & Hs1 & H1 & Ht1 & Hl1).
    rewrite Hc, Hcs in Hl1. simpl in Hl1.
    assert (Hc1 : _constraints (self s1) = []) by by apply nil_length_inv.
    pose proof (finalized_dormant s1 w1 H1 Ht1 Hc1) as Hd2.
    destruct (IH _ Hall Hd2) as (s' & Hl & Hd' & Hc' & He).
    { by cbn [self finalized _constraints]. }
    exists s'. cbn [lifecycles].
    rewrite (bind_Ok _ _ _ _ _ Hs1).
    rewrite (bind_Ok _ _ _ _ _ (finalize_wf s1 w1 H1)).
    split; [exact Hl|]. split; [exact Hd'|]. split; [exact Hc'|]. intros _.
    destruct css as [|cs' css'].
    + cbn [lifecycles] in Hl. injection Hl as <-.
      cbn [heap self finalized _shapes]. split; [|done].
      by apply finalize_heap_empty.
    + by apply He.
Qed.

Lemma State_new_dormant : dormant State_new.
Proof.
  split_and!; [done|apply State_new_idle|].
  intros p [o Hp]. unfold State_new in Hp. cbn [heap] in Hp. by rewrite lookup_empty in Hp.
Qed.

Lemma perform_worldless c s :
  dormant s -> worldless c = true ->
  ∃ s', perform c s = Ok (tt, s') ∧ dormant s'
        ∧ _constraints (self s') = _constraints (self s).
Proof.
  intros (Hn & ((Hpos & Hf) & Hnd & Hlive) & Ht) Hc.
  assert (Hshape : ∀ o,
    dormant {| heap := <[next s := o]> (heap s); next := N.succ (next s); trace := trace s;
               self := set__shapes (_shapes (self s) ++ [next s]) (self s) |}).
  { intros o. split_and!; cbn [self heap next set__shapes _world _constraints _shapes].
    - done.
    - split_and!; cbn [self heap next set__shapes _world _constraints _shapes].
      + split; cbn [heap next]; [lia|]. intros p [o' Hp].
        destruct (decide (p = next s)) as [->|Hne]; [lia|].
        rewrite lookup_insert_ne in Hp by done.
        destruct (Hf p) as [? ?]; [by eexists|]. lia.
      + rewrite app_assoc. apply NoDup_app. split_and!; [done| |apply NoDup_singleton].
        intros p Hp Hin. apply list_elem_of_singleton in Hin as ->.
        destruct (Hf (next s)) as [? ?]; [by apply Hlive|]. lia.
      + intros p Hp. rewrite app_assoc in Hp. apply elem_of_app in Hp as [Hp|Hp].
        * destruct (Hlive p Hp) as [? ?]. split; [done|].
          rewrite lookup_insert_ne; [done|]. intros <-.
          destruct (Hf (next s)) as [? ?]; [done|]. lia.
        * apply list_elem_of_singleton in Hp as ->. split; [unfold NULL; lia|].
          rewrite lookup_insert_eq. by eexists.
    - intros p Hp. rewrite app_assoc.
      destruct (decide (p = next s)) as [->|Hne]; [in_apps|].
      rewrite lookup_insert_ne in Hp by done. specialize (Ht p Hp).
      apply elem_of_app. by left. }
  destruct c as [g|t|mn mx sc|r sc|v st i|d wd ht|e| |]; try discriminate Hc;
    cbn [perform].
  - eexists. split; [apply (setGravity_idle g s Hn)|].
    split; [|done]. unfold dormant, idle, fresh.
    cbn [self heap next set__gravity _world _constraints _shapes]. by split_and!.
  - eexists. rewrite (bind_Ok _ _ _ _ _ (getBox_Ok mn mx sc s)).
    split; [reflexivity|]. split; [apply Hshape|done].
  - eexists. rewrite (bind_Ok _ _ _ _ _ (getSphere_Ok r sc s)).
    split; [reflexivity|]. split; [apply Hshape|done].
  - exists s. unfold dormant, idle, fresh. by split_and!.
  - exists s. unfold dormant, idle, fresh. by split_and!.
  - exists s. unfold dormant, idle, fresh. by split_and!.
  - exists s. unfold dormant, idle, fresh. by split_and!.
Qed.

Lemma perform_all_worldless cs : ∀ s,
  dormant s -> forallb worldless cs = true ->
  ∃ s', perform_all cs s = Ok (tt, s') ∧ dormant s'
        ∧ _constraints (self s') = _constraints (self s).
Proof.
  induction cs as [|c cs IH]; intros s Hd Hall.
  - by exists s.
  - simpl in Hall. apply andb_prop in Hall as [Hc Hall].
    destruct (perform_worldless c s Hd Hc) as (s1 & H1 & Hd1 & Hc1).
    destruct (IH s1 Hd1 Hall) as (s2 & H2 & Hd2 & Hc2).
    exists s2. cbn [perform_all]. rewrite (bind_Ok _ _ _ _ _ H1).
    split_and!; try done. by rewrite Hc2.
Qed.

(** *** What a trace destroys *)

Lemma destroyed_app t1 t2 : destroyed (t1 ++ t2) = destroyed t1 ++ destroyed t2.
Proof. unfold destroyed. apply flat_map_app. Qed.

Lemma destroyed_Destroy l : destroyed (map Destroy l) = l.
Proof. induction l as [|p l IH]; [done|]. simpl. by rewrite IH. Qed.

Lemma destroyed_constraints l :
  destroyed (flat_map (fun c => [Detach c; Destroy c]) l) = l.
Proof. induction l as [|p l IH]; [done|]. simpl. by rewrite IH. Qed.

Lemma destroyed_bodies (h : gmap addr Object) l :
  destroyed (flat_map (body_events h) l) = flat_map (body_resources h) l.
Proof.
  induction l as [|o l IH]; [done|].
  cbn [flat_map]. rewrite destroyed_app, IH. f_equal.
  unfold body_events, body_resources. rewrite destroyed_app, destroyed_Destroy. done.
Qed.

Lemma destroyed_teardown s w : destroyed (teardown s w) = owned s w.
Proof.
  unfold teardown, owned.
  rewrite !destroyed_app, destroyed_constraints, !destroyed_Destroy, destroyed_bodies.
  done.
Qed.


(** *** Calls that change the world alone *)

Lemma setGravity_wf g s w :
  wf s w ->
  wf {| heap := <[_world (self s) :=
                    ObjWorld (World_setGravity
                      (btVector3.mk (Vector3.x g) (Vector3.y g) (Vector3.z g)) w)]> (heap s);
        next := next s; trace := trace s;
        self := set__gravity (btVector3.mk (Vector3.x g) (Vector3.y g) (Vector3.z g))
                             (self s) |}
     (World_setGravity (btVector3.mk (Vector3.x g) (Vector3.y g) (Vector3.z g)) w).
Proof.
  intros H.
  apply (wf_extend [] s w); simpl; try done.
  - by rewrite lookup_insert_eq.
  - intros q Hq Hql. by rewrite lookup_insert_ne.
  - apply NoDup_nil_2.
  - intros q Hq. by apply elem_of_nil in Hq.
  - intros q [o' Hq]. destruct (decide (q = _world (self s))) as [->|H3].
    + exact (wf_world_lt _ _ H).
    + rewrite lookup_insert_ne in Hq by done. apply (wf_fresh _ _ H). by eexists.
Qed.

(** *** The registry and the world's constraints *)

Lemma natives_ext (h h' : gmap addr Object) ps :
  (∀ p, p ∈ ps -> h' !! p = h !! p) -> natives h' ps = natives h ps.
Proof.
  intros Hext. unfold natives. apply flat_map_ext_elem.
  intros p Hp. by rewrite (Hext p Hp).
Qed.

Lemma natives_app (h : gmap addr Object) ps qs :
  natives h (ps ++ qs) = natives h ps ++ natives h qs.
Proof. unfold natives. apply flat_map_app. Qed.

Lemma wf_wrapper_old s w p :
  wf s w -> p ∈ _constraints (self s) -> p ≠ _world (self s) ∧ (p < next s)%N.
Proof.
  intros H Hp. split.
  - intros ->. pose proof (wf_nodup _ _ H) as Hnd. unfold owned in Hnd.
    apply NoDup_app in Hnd as (_ & _ & Hnd).
    apply NoDup_app in Hnd as (_ & Hd & _).
    apply (Hd _ Hp). in_apps.
  - apply (wf_owned_lt s w); [done|]. unfold owned. in_apps.
Qed.

Lemma in_step_kept s w h' c' w' :
  wf s w -> in_step s w ->
  (∀ p, p ≠ _world (self s) -> (p < next s)%N -> h' !! p = heap s !! p) ->
  _constraints c' = _constraints (self s) ->
  m_constraints w' = m_constraints w ->
  ∀ n t, in_step {| heap := h'; next := n; trace := t; self := c' |} w'.
Proof.
  intros H Hin Hold Hc Hw n t. unfold in_step. cbn [heap self].
  rewrite Hw, Hc, Hin. symmetry. apply natives_ext.
  intros p Hp. destruct (wf_wrapper_old s w p H Hp). by apply Hold.
Qed.

Lemma perform_in_step c s w :
  wf s w -> in_step s w ->
  ∃ s' w',
    perform c s = Ok (tt, s') ∧ wf s' w' ∧ in_step s' w'
    ∧ (tight s w -> tight s' w')
    ∧ length (m_constraints w') = length (m_constraints w) + creations [c].
Proof.
  intros H Hin.
  pose proof (wf_world_not_null _ _ H) as Hn. pose proof (wf_world _ _ H) as Hw.
  pose proof (wf_world_lt _ _ H) as Hlt.
  destruct c as [g|t|mn mx sc|r sc|v st i|d wd ht|e| |]; cbn [perform creations].
  - eexists _, _. split; [apply (setGravity_Ok g s w Hn Hw)|].
    split; [by apply setGravity_wf|]. split_and!.
    + apply (in_step_kept s w); try done.
      intros p Hp _. by rewrite lookup_insert_ne.
    + intros Ht. apply (tight_extend [] s w); simpl; try done.
      * intros q Hq Hql. by rewrite lookup_insert_ne.
      * intros q Hq. right. destruct (decide (q = _world (self s))) as [->|H3].
        -- rewrite Hw. by eexists.
        -- by rewrite lookup_insert_ne in Hq.
    + simpl. lia.
  - eexists _, _. rewrite (bind_Ok _ _ _ _ _ (create_Ok t s w H)).
    split; [reflexivity|].
    split; [exact (create_wf t s w _ _ H (create_Ok t s w H))|]. split_and!.
    + unfold in_step.
      cbn [heap self set__constraints _constraints World_addConstraint
           World_setConstraints m_constraints].
      rewrite natives_app. f_equal.
      * rewrite Hin. symmetry. apply natives_ext. intros p Hp.
        destruct (wf_wrapper_old s w p H Hp).
        rewrite !lookup_insert_ne; [done|lia..|done].
      * unfold natives. cbn [flat_map].
        rewrite lookup_insert_ne by lia. by rewrite lookup_insert_eq.
    + intros Ht. by apply create_tight.
    + cbn [World_addConstraint World_setConstraints m_constraints].
      rewrite length_app. simpl. lia.
  - eexists _, _. rewrite (bind_Ok _ _ _ _ _ (getBox_Ok mn mx sc s)).
    split; [reflexivity|]. split; [by apply new_shape_wf|]. split_and!.
    + apply (in_step_kept s w); try done.
      intros p _ Hp. rewrite lookup_insert_ne; [done|lia].
    + intros Ht. by apply new_shape_tight.
    + simpl. lia.
  - eexists _, _. rewrite (bind_Ok _ _ _ _ _ (getSphere_Ok r sc s)).
    split; [reflexivity|]. split; [by apply new_shape_wf|]. split_and!.
    + apply (in_step_kept s w); try done.
      intros p _ Hp. rewrite lookup_insert_ne; [done|lia].
    + intros Ht. by apply new_shape_tight.
    + simpl. lia.
  - exists s, w. split_and!; try done; simpl; lia.
  - exists s, w. split_and!; try done; simpl; lia.
  - eexists _, _. split; [apply (update_Ok e s w Hn Hw)|].
    split; [by apply (world_change_wf (World_stepSimulation (seconds e) 10))|].
    split_and!.
    + apply (in_step_kept s w); try done.
      intros p Hp _. by rewrite lookup_insert_ne.
    + intros Ht. by apply (world_change_tight (World_stepSimulation (seconds e) 10)).
    + simpl. lia.
  - exists s, w. split_and!; try done; simpl; lia.
  - exists s, w. split_and!; try done; simpl; lia.
Qed.

(** *** A second [initialize] *)

Lemma NoDup_apart {A} (a b c d f : list A) x :
  NoDup (a ++ b ++ c ++ d ++ f) -> x ∈ a ++ c ++ f -> x ∉ b ++ d.
Proof.
  intros Hnd Hx Hy.
  apply NoDup_app in Hnd as (_ & dA & Hnd).
  apply NoDup_app in Hnd as (_ & dB & Hnd).
  apply NoDup_app in Hnd as (_ & dC & Hnd).
  apply NoDup_app in Hnd as (_ & dD & _).
  rewrite !elem_of_app in Hx. rewrite elem_of_app in Hy.
  destruct Hx as [Hx|[Hx|Hx]], Hy as [Hy|Hy].
  - apply (dA x Hx). in_apps.
  - apply (dA x Hx). in_apps.
  - apply (dB x Hy). in_apps.
  - apply (dC x Hx). in_apps.
  - apply (dB x Hy). in_apps.
  - by apply (dD x Hy).
Qed.

(** Look an address up in a store built by insertions at other addresses. *)
Lemma initialize_keeps s p :
  (p < next s)%N ->
  (<[N.succ (N.succ (N.succ (N.succ (next s)))) :=
       ObjWorld (initial_world (next s) (self s))]>
     (<[N.succ (N.succ (N.succ (next s))) := ObjSolver]>
     (<[N.succ (N.succ (next s)) := ObjBroadphase]>
     (<[N.succ (next s) := ObjDispatcher (next s)]>
     (<[next s := ObjCollisionConfiguration]> (heap s))))) : gmap addr Object) !! p
  = heap s !! p.
Proof. intros Hp. by rewrite !lookup_insert_ne by lia. Qed.

Lemma initialize_owned s :
  owned {| heap := <[N.succ (N.succ (N.succ (N.succ (next s)))) :=
                           ObjWorld (initial_world (next s) (self s))]>
                 (<[N.succ (N.succ (N.succ (next s))) := ObjSolver]>
                 (<[N.succ (N.succ (next s)) := ObjBroadphase]>
                 (<[N.succ (next s) := ObjDispatcher (next s)]>
                 (<[next s := ObjCollisionConfiguration]> (heap s)))));
               next := N.succ (N.succ (N.succ (N.succ (N.succ (next s)))));
               trace := trace s;
               self := initialized (next s) (self s) |}
        (initial_world (next s) (self s))
  = _constraints (self s) ++ _shapes (self s)
    ++ [N.succ (N.succ (N.succ (N.succ (next s)))); N.succ (N.succ (N.succ (next s)));
        N.succ (N.succ (next s)); N.succ (next s); next s].
Proof.
  unfold owned.
  cbn [self heap next _constraints _shapes initialized m_constraints m_collisionObjects
       initial_world World_setGravity World_new _world _solver _overlappingPairCache
       _dispatcher _collisionConfiguration].
  rewrite reverse_nil. reflexivity.
Qed.

End LifecycleLemmas.

Section LifecycleProperties.
Context `{E : Engine}.

(** X1.  [finalize] on a fit state returns; the objects it destroys are
    exactly the owned ones, each once and in the order of ownership
    (the world's constraints last slot first, the wrappers, the collision
    objects last slot first with their motion states, the shapes, then the
    world, the solver, the pair cache, the dispatcher and the collision
    configuration); every other object in the store is left as it was. *)
Theorem finalize_destroys_owned s w :
  wf s w ->
  ∃ s', finalize s = Ok (tt, s')
    ∧ destroyed (trace s') = destroyed (trace s) ++ owned s w
    ∧ NoDup (owned s w)
    ∧ (∀ p, p ∈ owned s w -> heap s' !! p = None)
    ∧ (∀ p, p ∉ owned s w -> heap s' !! p = heap s !! p)
    ∧ next s' = next s.
Proof.
  intros H. eexists. split; [apply (finalize_wf s w H)|]. cbn [trace heap next].
  split_and!.
  - by rewrite destroyed_app, destroyed_teardown.
  - apply (wf_nodup _ _ H).
  - intros p Hp. rewrite free_all_lookup. by case_decide.
  - intros p Hp. rewrite free_all_lookup. by case_decide.
  - reflexivity.
Qed.

(** X2.  The events of [finalize] on a fit state, phase by phase: the world's
    constraints from the last slot to the first, each detached and then
    destroyed; the wrappers in registry order; the collision objects from
    the last slot to the first, each taken out of the world and then
    destroyed, after its motion state when it is a rigid body that has one;
    the shapes in registry order; and the world, the solver, the pair cache,
    the dispatcher and the collision configuration, in this order. *)
Theorem finalize_phases s w :
  wf s w ->
  ∃ s', finalize s = Ok (tt, s')
    ∧ trace s' = trace s
        ++ flat_map (fun c => [Detach c; Destroy c]) (reverse (m_constraints w))
        ++ map Destroy (_constraints (self s))
        ++ flat_map (fun o => map Destroy (motion_state (heap s) o) ++ [Unlink o; Destroy o])
             (reverse (m_collisionObjects w))
        ++ map Destroy (_shapes (self s))
        ++ [Destroy (_world (self s)); Destroy (_solver (self s));
            Destroy (_overlappingPairCache (self s)); Destroy (_dispatcher (self s));
            Destroy (_collisionConfiguration (self s))]
    ∧ ∀ o, o ∈ m_collisionObjects w ->
        ∃ rb m, heap s !! o = Some (ObjCollisionObject rb m)
                ∧ motion_state (heap s) o = if rb && negb (is_null m) then [m] else [].
Proof.
  intros H. eexists. split; [apply (finalize_wf s w H)|]. split; [reflexivity|].
  intros o Ho. destruct (wf_objects _ _ H o Ho) as (rb & m & Hm).
  exists rb, m. split; [done|]. unfold motion_state. rewrite Hm.
  by destruct rb, (is_null m).
Qed.

(** X3.  [finalize] needs a live world: with a null world pointer, as before
    [initialize], its first loop dereferences the null pointer; and since
    [finalize] nulls the world pointer, so does a second [finalize] right
    after a first. *)
Theorem finalize_needs_world :
  (∀ s, _world (self s) = NULL -> finalize s = Fault NullPointerDereference)
  ∧ (∀ s w, wf s w -> (finalize ;; finalize) s = Fault NullPointerDereference).
Proof.
  split; [exact finalize_null|].
  intros s w H. rewrite (bind_Ok _ _ _ _ _ (finalize_wf s w H)).
  by apply finalize_null.
Qed.

(** X4.  [initialize] on a controller without a world returns and leaves a
    fit state: a new collision configuration, a dispatcher built on that
    configuration, a pair cache and a solver, and a world built on the four,
    which has no constraint, no collision object and has not stepped; the
    five are new objects at distinct addresses, the registries, the trace
    and the objects that were there are untouched. *)
Theorem initialize_builds_world s :
  idle s ->
  ∃ s' w,
    initialize s = Ok (tt, s')
    ∧ wf s' w
    ∧ heap s' !! _collisionConfiguration (self s') = Some ObjCollisionConfiguration
    ∧ heap s' !! _dispatcher (self s')
      = Some (ObjDispatcher (_collisionConfiguration (self s')))
    ∧ heap s' !! _overlappingPairCache (self s') = Some ObjBroadphase
    ∧ heap s' !! _solver (self s') = Some ObjSolver
    ∧ m_dispatcher w = _dispatcher (self s')
    ∧ m_pairCache w = _overlappingPairCache (self s')
    ∧ m_constraintSolver w = _solver (self s')
    ∧ m_collisionConfiguration w = _collisionConfiguration (self s')
    ∧ m_constraints w = [] ∧ m_collisionObjects w = [] ∧ m_subSteps w = 0
    ∧ _shapes (self s') = _shapes (self s)
    ∧ _constraints (self s') = _constraints (self s)
    ∧ trace s' = trace s
    ∧ (∀ p, (p < next s)%N -> heap s' !! p = heap s !! p)
    ∧ (∀ p, is_Some (heap s' !! p) -> (next s <= p)%N -> p ∈ owned s' w).
Proof.
  intros Hidle. eexists _, _. split; [apply initialize_Ok|].
  split; [by apply initialize_wf|].
  rewrite initialize_owned.
  cbn [self heap next trace initialized _collisionConfiguration _dispatcher
       _overlappingPairCache _solver _shapes _constraints initial_world
       World_setGravity World_new m_dispatcher m_pairCache m_constraintSolver
       m_collisionConfiguration m_constraints m_collisionObjects m_subSteps].
  split_and!; try reflexivity.
  - rewrite !lookup_insert_ne by lia. apply lookup_insert_eq.
  - rewrite !lookup_insert_ne by lia. apply lookup_insert_eq.
  - rewrite !lookup_insert_ne by lia. apply lookup_insert_eq.
  - rewrite !lookup_insert_ne by lia. apply lookup_insert_eq.
  - intros p Hp. by apply initialize_keeps.
  - intros p Hp Hge.
    destruct (decide (p = N.succ (N.succ (N.succ (N.succ (next s)))))) as [->|H5];
      [in_apps|].
    destruct (decide (p = N.succ (N.succ (N.succ (next s))))) as [->|H4]; [in_apps|].
    destruct (decide (p = N.succ (N.succ (next s)))) as [->|H3]; [in_apps|].
    destruct (decide (p = N.succ (next s))) as [->|H2]; [in_apps|].
    destruct (decide (p = next s)) as [->|H1]; [in_apps|].
    rewrite !lookup_insert_ne in Hp by done.
    destruct Hidle as ((_ & Hf) & _). specialize (Hf p Hp). lia.
Qed.

(** X5.  [initialize] does not look at what the five pointers hold.  Called
    on a controller whose world is live, it overwrites them; the [finalize]
    that follows destroys the second world and the registered wrappers and
    shapes, and returns with the first world, its four components, its
    native constraints and its collision objects still in the store, where
    no pointer of the controller leads to them any more. *)
Theorem initialize_over_live_world s w :
  wf s w ->
  ∃ s',
    (initialize ;; finalize) s = Ok (tt, s')
    ∧ (∀ p, p ∈ reverse (m_constraints w)
              ++ flat_map (body_resources (heap s)) (reverse (m_collisionObjects w))
              ++ [_world (self s); _solver (self s); _overlappingPairCache (self s);
                  _dispatcher (self s); _collisionConfiguration (self s)] ->
            is_Some (heap s !! p) ∧ heap s' !! p = heap s !! p)
    ∧ (∀ p, p ∈ _constraints (self s) ++ _shapes (self s) -> heap s' !! p = None)
    ∧ _world (self s') = NULL
    ∧ _solver (self s') = NULL
    ∧ _overlappingPairCache (self s') = NULL
    ∧ _dispatcher (self s') = NULL
    ∧ _collisionConfiguration (self s') = NULL.
Proof.
  intros H. pose proof (initialize_wf s (wf_idle s w H)) as H2.
  eexists. rewrite (bind_Ok _ _ _ _ _ (initialize_Ok s)).
  split; [apply (finalize_wf _ _ H2)|].
  cbn [heap self finalized _world _solver _overlappingPairCache _dispatcher
       _collisionConfiguration].
  rewrite initialize_owned.
  split_and!; try reflexivity.
  - intros p Hp.
    assert (Hown : p ∈ owned s w) by (unfold owned; revert Hp; in_apps).
    pose proof (NoDup_apart _ _ _ _ _ p (wf_nodup _ _ H) Hp) as Hreg.
    destruct (wf_live _ _ H p Hown) as [_ Hsome].
    pose proof (wf_owned_lt s w p H Hown) as Hlt.
    split; [exact Hsome|].
    rewrite free_all_lookup. case_decide as Hin.
    + exfalso. rewrite app_assoc in Hin. apply elem_of_app in Hin as [Hin|Hin]; [done|].
      rewrite !elem_of_cons, elem_of_nil in Hin. lia.
    + apply initialize_keeps. lia.
  - intros p Hp. rewrite free_all_lookup. case_decide as Hin; [reflexivity|].
    exfalso. apply Hin. rewrite app_assoc. apply elem_of_app. by left.
Qed.

(** X6.  [finalize] leaves the destroyed wrappers in the constraint
    registry, so the second loop of the next [finalize] deletes the first of
    them again: after a [finalize] with a non-empty registry, [initialize]
    returns and the following [finalize] deletes an address that holds no
    object. *)
Theorem stale_wrapper_deleted_again s w p l :
  wf s w -> _constraints (self s) = p :: l ->
  (finalize ;; initialize ;; finalize) s = Fault (InvalidPointer p).
Proof.
  intros H Hreg.
  assert (Hown : p ∈ owned s w) by (unfold owned; rewrite Hreg; in_apps).
  destruct (wf_live _ _ H p Hown) as [Hnn _].
  pose proof (wf_owned_lt s w p H Hown) as Hlt.
  rewrite (bind_Ok _ _ _ _ _ (finalize_wf s w H)).
  rewrite (bind_Ok _ _ _ _ _ (initialize_Ok _)).
  cbn [heap next trace self].
  match goal with |- finalize ?x = _ => set (s2 := x) end.
  assert (Hw2 : world s2 = Ok (initial_world (next s) (finalized (self s)), s2)).
  { apply world_Ok; [apply succ_not_null|]. apply lookup_insert_eq. }
  assert (H1 : finalize_world_constraints s2 = Ok (tt, s2)).
  { unfold finalize_world_constraints. by rewrite (bind_Ok _ _ _ _ _ Hw2). }
  assert (H2 : finalize_constraints s2 = Fault (InvalidPointer p)).
  { unfold finalize_constraints. rewrite this_bind.
    change (_constraints (self s2)) with (_constraints (self s)). rewrite Hreg.
    cbn [length for_up]. apply bind_Fault.
    unfold delete_constraint_at. rewrite this_bind.
    change (_constraints (self s2)) with (_constraints (self s)). rewrite Hreg.
    rewrite (bind_Ok _ _ _ _ _ (at_index_Ok (p :: l) 0 p s2 eq_refl)).
    unfold delete. rewrite (is_null_false _ Hnn).
    assert (Hgone : heap s2 !! p = None).
    { unfold s2. cbn [heap]. rewrite !lookup_insert_ne by lia.
      rewrite free_all_lookup. by case_decide. }
    by rewrite Hgone. }
  unfold finalize. rewrite (bind_Ok _ _ _ _ _ H1). by apply bind_Fault.
Qed.

(** X7.  The registry and the world stay in step.  When the world's
    constraints are the native constraints of the registered wrappers, in
    registry order, every sequence of calls returns and they still are; the
    state stays fit, the world has one constraint more for every creation,
    and nothing unowned appears in the store. *)
Theorem registry_in_step cs s w :
  wf s w -> in_step s w ->
  ∃ s' w',
    perform_all cs s = Ok (tt, s')
    ∧ wf s' w'
    ∧ m_constraints w' = natives (heap s') (_constraints (self s'))
    ∧ length (m_constraints w') = length (m_constraints w) + creations cs
    ∧ (tight s w -> tight s' w').
Proof.
  revert s w. induction cs as [|c cs IH]; intros s w H Hin.
  - exists s, w. split_and!; try done; simpl; lia.
  - destruct (perform_in_step c s w H Hin) as (s1 & w1 & Hc & H1 & Hin1 & Ht1 & Hl1).
    destruct (IH s1 w1 H1 Hin1) as (s2 & w2 & Hcs & H2 & Hin2 & Hl2 & Ht2).
    exists s2, w2. cbn [perform_all]. rewrite (bind_Ok _ _ _ _ _ Hc).
    split; [exact Hcs|]. split; [exact H2|]. split; [exact Hin2|].
    split; [|tauto]. rewrite Hl2, Hl1. destruct c; simpl; lia.
Qed.

(** X8.  A whole life of the controller: calls that do not go through the
    world (gravity, shapes) before [initialize], any calls after it, then
    [finalize].  Every call returns, and [finalize] leaves the store empty:
    the shapes created before [initialize] are destroyed with the rest. *)
Theorem lifecycle_leaves_store_empty pre cs :
  forallb worldless pre = true ->
  ∃ s',
    (perform_all pre ;; session cs ;; finalize) State_new = Ok (tt, s')
    ∧ heap s' = ∅
    ∧ _shapes (self s') = []
    ∧ _world (self s') = NULL
    ∧ length (_constraints (self s')) = creations cs.
Proof.
  intros Hpre.
  destruct (perform_all_worldless pre State_new State_new_dormant Hpre)
    as (s0 & Hs0 & Hd0 & Hc0).
  destruct (session_from_dormant cs s0 Hd0) as (s1 & w1 & Hs1 & H1 & Ht1 & Hl1).
  eexists. rewrite (bind_Ok _ _ _ _ _ Hs0). rewrite (bind_Ok _ _ _ _ _ Hs1).
  split; [apply (finalize_wf s1 w1 H1)|].
  cbn [heap self finalized _shapes _world _constraints].
  split; [by apply finalize_heap_empty|].
  split; [reflexivity|]. split; [reflexivity|].
  rewrite Hl1, Hc0. reflexivity.
Qed.

(** X9.  Lifecycles in which no constraint is created can be repeated any
    number of times on the same controller: every [initialize], call and
    [finalize] returns, and at the end the store and both registries are
    empty and the world pointer is null. *)
Theorem lifecycles_without_constraints css :
  Forall (fun cs => creations cs = 0) css ->
  ∃ s',
    lifecycles css State_new = Ok (tt, s')
    ∧ heap s' = ∅
    ∧ _shapes (self s') = []
    ∧ _constraints (self s') = []
    ∧ _world (self s') = NULL.
Proof.
  intros Hall.
  destruct (lifecycles_dormant css State_new Hall State_new_dormant eq_refl)
    as (s' & Hl & (Hn & _) & Hc & He).
  exists s'. split; [exact Hl|].
  destruct css as [|cs css].
  - cbn [lifecycles] in Hl. injection Hl as <-. by split_and!.
  - destruct He as [Hh Hs]; [done|]. by split_and!.
Qed.

End LifecycleProperties.

(** * Gravity and stepping over several calls *)

Section GravityAndStepping.
Context `{E : Engine}.

(** X10.  [update] called over and over: every call returns, the controller
    is unchanged, and after [k] calls the world has performed at most
    [10 * k] sub-steps more, whatever the elapsed times; its gravity, its
    constraints and its collision objects are as before. *)
Theorem updates_sub_step_budget es s w :
  _world (self s) ≠ NULL ->
  heap s !! _world (self s) = Some (ObjWorld w) ->
  ∃ s' w',
    perform_all (map Update es) s = Ok (tt, s')
    ∧ self s' = self s
    ∧ heap s' !! _world (self s) = Some (ObjWorld w')
    ∧ m_subSteps w <= m_subSteps w' <= m_subSteps w + 10 * length es
    ∧ m_gravity w' = m_gravity w
    ∧ m_constraints w' = m_constraints w
    ∧ m_collisionObjects w' = m_collisionObjects w.
Proof.
  revert s w.
  induction es as [|e es IH]; intros s w Hn Hw.
  - exists s, w. split_and!; try done; simpl; lia.
  - pose proof (update_Ok e s w Hn Hw) as He.
    match type of He with _ = Ok (tt, ?x) => set (s1 := x) in * end.
    destruct (IH s1 (World_stepSimulation (seconds e) 10 w)) as
      (s' & w' & Hes & Hself & Hw' & Hsteps & Hg & Hc & Ho).
    { exact Hn. }
    { apply lookup_insert_eq. }
    exists s', w'. cbn [map perform_all perform].
    rewrite (bind_Ok _ _ _ _ _ He).
    split; [exact Hes|]. split; [exact Hself|]. split; [exact Hw'|].
    split; [|by rewrite Hg, Hc, Ho].
    revert Hsteps. unfold World_stepSimulation. cbn [m_subSteps length].
    change (Z.to_nat 10) with 10. lia.
Qed.

(** X11.  [setGravity] overwrites: of two calls in a row only the second
    counts, for the stored gravity and for the world's, with or without a
    live world. *)
Theorem setGravity_overwrites g1 g2 s :
  (_world (self s) = NULL
   ∨ ∃ w, _world (self s) ≠ NULL ∧ heap s !! _world (self s) = Some (ObjWorld w)) ->
  (setGravity g1 ;; setGravity g2) s = setGravity g2 s.
Proof.
  intros [Hn|(w & Hn & Hw)].
  - rewrite (bind_Ok _ _ _ _ _ (setGravity_idle g1 s Hn)).
    rewrite (setGravity_idle g2 s Hn). rewrite setGravity_idle by exact Hn.
    reflexivity.
  - rewrite (bind_Ok _ _ _ _ _ (setGravity_Ok g1 s w Hn Hw)).
    rewrite (setGravity_Ok g2 s w Hn Hw).
    erewrite setGravity_Ok; [|exact Hn|apply lookup_insert_eq].
    cbn [heap next trace self set__gravity _world]. by rewrite insert_insert_eq.
Qed.

(** X12.  The gravity set on the controller goes into the next step of the
    simulation: [setGravity] followed by [update] advances the world under
    the new gravity. *)
Theorem update_uses_latest_gravity g e s w :
  _world (self s) ≠ NULL ->
  heap s !! _world (self s) = Some (ObjWorld w) ->
  ∃ s' w',
    (setGravity g ;; update e) s = Ok (tt, s')
    ∧ heap s' !! _world (self s') = Some (ObjWorld w')
    ∧ m_dynamics w'
      = advance (stored g) (seconds e)
                (Nat.min (subStepsRequired (m_dynamics w) (seconds e)) 10) (m_dynamics w)
    ∧ m_gravity w' = stored g.
Proof.
  intros Hn Hw. eexists _, _.
  rewrite (bind_Ok _ _ _ _ _ (setGravity_Ok g s w Hn Hw)).
  split; [apply update_Ok; [exact Hn|apply lookup_insert_eq]|].
  cbn [heap self set__gravity _world]. split; [apply lookup_insert_eq|].
  split; reflexivity.
Qed.

(** X13.  The stored gravity outlives the world: [finalize] keeps it, and the
    world that the next [initialize] creates starts with it. *)
Theorem gravity_survives_finalize g s w :
  wf s w ->
  ∃ s' w',
    (setGravity g ;; finalize ;; initialize) s = Ok (tt, s')
    ∧ _world (self s') ≠ NULL
    ∧ heap s' !! _world (self s') = Some (ObjWorld w')
    ∧ m_gravity w' = stored g
    ∧ _gravity (self s') = stored g.
Proof.
  intros H.
  pose proof (wf_world_not_null _ _ H) as Hn. pose proof (wf_world _ _ H) as Hw.
  eexists _, _.
  rewrite (bind_Ok _ _ _ _ _ (setGravity_Ok g s w Hn Hw)).
  rewrite (bind_Ok _ _ _ _ _ (finalize_wf _ _ (setGravity_wf g s w H))).
  split; [apply initialize_Ok|].
  cbn [heap self next initialized _world _gravity].
  split; [apply succ_not_null|]. split; [apply lookup_insert_eq|].
  split; reflexivity.
Qed.

End GravityAndStepping.

Section LifecycleRuns.
#[local] Existing Instance stub_engine.

Lemma one_constraint_wf : wf Scenes.one_constraint Scenes.one_constraint_world.
Proof.
  unfold Scenes.one_constraint, Scenes.one_constraint_world, run.
  rewrite (create_Ok Sample.C1 _ _ live_wf).
  exact (create_wf Sample.C1 _ _ _ _ live_wf (create_Ok Sample.C1 _ _ live_wf)).
Qed.

Lemma with_bodies_wf :
  wf Sample.with_bodies (World_setCollisionObjects [7%N; 8%N; 9%N] Sample.live_world).
Proof.
  split.
  - vm_compute. reflexivity.
  - apply (bool_decide_unpack _). by vm_compute.
  - apply Forall_forall. apply (bool_decide_unpack _). by vm_compute.
  - apply Forall_forall. repeat constructor; eexists _, _; vm_compute; reflexivity.
  - intros p [o Hp]. revert p o Hp.
    apply (bool_decide_unpack (map_Forall (fun p _ => (0 < p < 10)%N) _)).
    by vm_compute.
Qed.

Lemma finalize_destroys_owned_witness :
  ∃ s', finalize Scenes.one_constraint = Ok (tt, s')
    ∧ destroyed (trace s')
      = destroyed (trace Scenes.one_constraint)
        ++ owned Scenes.one_constraint Scenes.one_constraint_world
    ∧ NoDup (owned Scenes.one_constraint Scenes.one_constraint_world)
    ∧ (∀ p, p ∈ owned Scenes.one_constraint Scenes.one_constraint_world ->
            heap s' !! p = None)
    ∧ (∀ p, p ∉ owned Scenes.one_constraint Scenes.one_constraint_world ->
            heap s' !! p = heap Scenes.one_constraint !! p)
    ∧ next s' = next Scenes.one_constraint.
Proof.
  apply (finalize_destroys_owned Scenes.one_constraint Scenes.one_constraint_world).
  exact one_constraint_wf.
Defined.

Lemma finalize_phases_witness :
  ∃ s', finalize Sample.with_bodies = Ok (tt, s')
    ∧ trace s' = [Unlink 9%N; Destroy 9%N; Unlink 8%N; Destroy 8%N;
                  Destroy 6%N; Unlink 7%N; Destroy 7%N;
                  Destroy 5%N; Destroy 4%N; Destroy 3%N; Destroy 2%N; Destroy 1%N].
Proof.
  destruct (finalize_phases Sample.with_bodies
              (World_setCollisionObjects [7%N; 8%N; 9%N] Sample.live_world)
              with_bodies_wf) as (s' & Hfin & Htrace & _).
  exists s'. split; [exact Hfin|]. rewrite Htrace. vm_compute. reflexivity.
Defined.

Lemma finalize_needs_world_witness :
  finalize State_new = Fault NullPointerDereference
  ∧ (finalize ;; finalize) Sample.live = Fault NullPointerDereference.
Proof.
  split.
  - apply (proj1 finalize_needs_world State_new). reflexivity.
  - apply (proj2 finalize_needs_world Sample.live Sample.live_world). exact live_wf.
Defined.

Lemma initialize_builds_world_witness :
  ∃ s' w,
    initialize State_new = Ok (tt, s')
    ∧ wf s' w
    ∧ heap s' !! _collisionConfiguration (self s') = Some ObjCollisionConfiguration
    ∧ heap s' !! _dispatcher (self s')
      = Some (ObjDispatcher (_collisionConfiguration (self s')))
    ∧ heap s' !! _overlappingPairCache (self s') = Some ObjBroadphase
    ∧ heap s' !! _solver (self s') = Some ObjSolver
    ∧ m_dispatcher w = _dispatcher (self s')
    ∧ m_pairCache w = _overlappingPairCache (self s')
    ∧ m_constraintSolver w = _solver (self s')
    ∧ m_collisionConfiguration w = _collisionConfiguration (self s')
    ∧ m_constraints w = [] ∧ m_collisionObjects w = [] ∧ m_subSteps w = 0
    ∧ _shapes (self s') = _shapes (self State_new)
    ∧ _constraints (self s') = _constraints (self State_new)
    ∧ trace s' = trace State_new
    ∧ (∀ p, (p < next State_new)%N -> heap s' !! p = heap State_new !! p)
    ∧ (∀ p, is_Some (heap s' !! p) -> (next State_new <= p)%N -> p ∈ owned s' w).
Proof.
  apply (initialize_builds_world State_new). exact State_new_idle.
Defined.

Lemma initialize_over_live_world_witness :
  ∃ s',
    (initialize ;; finalize) Sample.with_bodies = Ok (tt, s')
    ∧ heap s' !! 5%N = heap Sample.with_bodies !! 5%N
    ∧ heap s' !! 7%N = Some (ObjCollisionObject true 6%N)
    ∧ heap s' !! 6%N = Some ObjMotionState
    ∧ _world (self s') = NULL.
Proof.
  destruct (initialize_over_live_world Sample.with_bodies
              (World_setCollisionObjects [7%N; 8%N; 9%N] Sample.live_world)
              with_bodies_wf) as (s' & Hrun & Hkept & _ & Hw & _).
  assert (Hin : ∀ p, p ∈ [5%N; 6%N; 7%N] ->
            p ∈ reverse (m_constraints
                           (World_setCollisionObjects [7%N; 8%N; 9%N] Sample.live_world))
              ++ flat_map (body_resources (heap Sample.with_bodies))
                   (reverse (m_collisionObjects
                      (World_setCollisionObjects [7%N; 8%N; 9%N] Sample.live_world)))
              ++ [_world (self Sample.with_bodies); _solver (self Sample.with_bodies);
                  _overlappingPairCache (self Sample.with_bodies);
                  _dispatcher (self Sample.with_bodies);
                  _collisionConfiguration (self Sample.with_bodies)]).
  { apply Forall_forall. apply (bool_decide_unpack _). by vm_compute. }
  exists s'. split; [exact Hrun|].
  split; [apply Hkept, Hin; rewrite !elem_of_cons; tauto|].
  split.
  - etrans; [apply Hkept, Hin; rewrite !elem_of_cons; tauto|].
    vm_compute. reflexivity.
  - split; [|exact Hw].
    etrans; [apply Hkept, Hin; rewrite !elem_of_cons; tauto|].
    vm_compute. reflexivity.
Defined.

Lemma stale_wrapper_deleted_again_witness :
  (finalize ;; initialize ;; finalize) Scenes.one_constraint = Fault (InvalidPointer 7%N).
Proof.
  apply (stale_wrapper_deleted_again Scenes.one_constraint Scenes.one_constraint_world
           7%N []).
  - exact one_constraint_wf.
  - vm_compute. reflexivity.
Defined.

Lemma live_in_step : in_step Sample.live Sample.live_world.
Proof. vm_compute. reflexivity. Qed.

Lemma registry_in_step_witness :
  ∃ s' w',
    perform_all [Create Sample.C1;
                 GetBox (Sample.vec 0 0 0) (Sample.vec 2 4 6) (Sample.bvec 1 1 1);
                 Update 16; Create Sample.C2] Sample.live = Ok (tt, s')
    ∧ wf s' w'
    ∧ m_constraints w' = natives (heap s') (_constraints (self s'))
    ∧ length (m_constraints w') = 2.
Proof.
  destruct (registry_in_step
              [Create Sample.C1;
               GetBox (Sample.vec 0 0 0) (Sample.vec 2 4 6) (Sample.bvec 1 1 1);
               Update 16; Create Sample.C2] Sample.live Sample.live_world
              live_wf live_in_step) as (s' & w' & Hrun & H & Hin & Hl & _).
  exists s', w'. split; [exact Hrun|]. split; [exact H|]. split; [exact Hin|exact Hl].
Defined.

Lemma lifecycle_leaves_store_empty_witness :
  ∃ s',
    (perform_all [SetGravity (Sample.vec 0 (-2) 0);
                  GetBox (Sample.vec 0 0 0) (Sample.vec 2 4 6) (Sample.bvec 1 1 1);
                  GetSphere (Sample.f 1) (Sample.bvec 1 2 3)] ;;
     session [Create Sample.C1; Update 16] ;;
     finalize) State_new = Ok (tt, s')
    ∧ heap s' = ∅
    ∧ _shapes (self s') = []
    ∧ _world (self s') = NULL
    ∧ length (_constraints (self s')) = 1.
Proof.
  apply (lifecycle_leaves_store_empty
           [SetGravity (Sample.vec 0 (-2) 0);
            GetBox (Sample.vec 0 0 0) (Sample.vec 2 4 6) (Sample.bvec 1 1 1);
            GetSphere (Sample.f 1) (Sample.bvec 1 2 3)]
           [Create Sample.C1; Update 16]).
  reflexivity.
Defined.

Lemma lifecycles_without_constraints_witness :
  ∃ s',
    lifecycles [[GetBox (Sample.vec 0 0 0) (Sample.vec 2 4 6) (Sample.bvec 1 1 1);
                 Update 16];
                [GetSphere (Sample.f 1) (Sample.bvec 1 2 3);
                 SetGravity (Sample.vec 0 (-2) 0)]] State_new = Ok (tt, s')
    ∧ heap s' = ∅
    ∧ _shapes (self s') = []
    ∧ _constraints (self s') = []
    ∧ _world (self s') = NULL.
Proof.
  apply (lifecycles_without_constraints
           [[GetBox (Sample.vec 0 0 0) (Sample.vec 2 4 6) (Sample.bvec 1 1 1);
             Update 16];
            [GetSphere (Sample.f 1) (Sample.bvec 1 2 3);
             SetGravity (Sample.vec 0 (-2) 0)]]).
  repeat constructor.
Defined.

Lemma updates_sub_step_budget_witness :
  ∃ s' w',
    perform_all (map Update [16; 1000; 33]%Z) Sample.live = Ok (tt, s')
    ∧ self s' = self Sample.live
    ∧ heap s' !! _world (self Sample.live) = Some (ObjWorld w')
    ∧ m_subSteps Sample.live_world <= m_subSteps w'
        <= m_subSteps Sample.live_world + 10 * length [16; 1000; 33]%Z
    ∧ m_gravity w' = m_gravity Sample.live_world
    ∧ m_constraints w' = m_constraints Sample.live_world
    ∧ m_collisionObjects w' = m_collisionObjects Sample.live_world.
Proof.
  apply (updates_sub_step_budget [16; 1000; 33]%Z Sample.live Sample.live_world).
  - by vm_compute.
  - vm_compute. reflexivity.
Defined.

Lemma setGravity_overwrites_witness :
  (setGravity (Sample.vec 0 (-2) 0) ;; setGravity (Sample.vec 1 0 0)) State_new
  = setGravity (Sample.vec 1 0 0) State_new
  ∧ (setGravity (Sample.vec 0 (-2) 0) ;; setGravity (Sample.vec 1 0 0)) Sample.live
    = setGravity (Sample.vec 1 0 0) Sample.live.
Proof.
  split.
  - apply (setGravity_overwrites _ _ State_new). left. reflexivity.
  - apply (setGravity_overwrites _ _ Sample.live). right. exists Sample.live_world.
    split; [by vm_compute|vm_compute; reflexivity].
Defined.

Lemma update_uses_latest_gravity_witness :
  ∃ s' w',
    (setGravity (Sample.vec 0 (-2) 0) ;; update 16) Sample.live = Ok (tt, s')
    ∧ heap s' !! _world (self s') = Some (ObjWorld w')
    ∧ m_dynamics w'
      = advance (Sample.bvec 0 (-2) 0) (seconds 16)
                (Nat.min (subStepsRequired (m_dynamics Sample.live_world) (seconds 16)) 10)
                (m_dynamics Sample.live_world)
    ∧ m_gravity w' = Sample.bvec 0 (-2) 0.
Proof.
  apply (update_uses_latest_gravity (Sample.vec 0 (-2) 0) 16 Sample.live Sample.live_world).
  - by vm_compute.
  - vm_compute. reflexivity.
Defined.

Lemma gravity_survives_finalize_witness :
  ∃ s' w',
    (setGravity (Sample.vec 0 (-2) 0) ;; finalize ;; initialize) Sample.live = Ok (tt, s')
    ∧ _world (self s') ≠ NULL
    ∧ heap s' !! _world (self s') = Some (ObjWorld w')
    ∧ m_gravity w' = Sample.bvec 0 (-2) 0
    ∧ _gravity (self s') = Sample.bvec 0 (-2) 0.
Proof.
  apply (gravity_survives_finalize (Sample.vec 0 (-2) 0) Sample.live Sample.live_world).
  exact live_wf.
Defined.

End LifecycleRuns.

(** * Edge cases of the shape operations *)

Section ShapeEdgeCases.
Context `{E : Engine}.

(** X14.  [getBox] does not care which corner is called [min] and which
    [max]: the two can be swapped, on every axis at once, and the same box is
    created, whatever the scalars are. *)
Theorem getBox_bounds_swap min max scale s :
  getBox min max scale s = getBox max min scale s.
Proof.
  rewrite !getBox_Ok.
  by rewrite (halfExtent_swap _ (Vector3.x max)), (halfExtent_swap _ (Vector3.y max)),
    (halfExtent_swap _ (Vector3.z max)).
Qed.

(** X15.  The scale goes into the half-extents with its sign: no absolute
    value is taken of it, so negating the scale negates every half-extent of
    the box that [getBox] creates. *)
Theorem getBox_negated_scale min max scale s :
  getBox min max
    (btVector3.mk (SFopp (btVector3.x scale)) (SFopp (btVector3.y scale))
                  (SFopp (btVector3.z scale))) s
  = shape_registered
      (ObjBoxShape
         (btVector3.mk
            (SFopp (halfExtent (btVector3.x scale) (Vector3.x max) (Vector3.x min)))
            (SFopp (halfExtent (btVector3.y scale) (Vector3.y max) (Vector3.y min)))
            (SFopp (halfExtent (btVector3.z scale) (Vector3.z max) (Vector3.z min))))) s.
Proof.
  rewrite getBox_Ok. cbn [btVector3.x btVector3.y btVector3.z].
  by rewrite !halfExtent_opp.
Qed.

(** X16.  A degenerate extent: when [max] and [min] are the same finite
    number on an axis, the half-extent on that axis is a zero if the scale
    times 0.5 is finite, and not a number otherwise. *)
Theorem halfExtent_degenerate scale a :
  is_finite a = true ->
  if is_finite (dmul (double_of_float scale) lit_0_5)
  then is_zero (halfExtent scale a a) = true
  else is_nan (halfExtent scale a a) = true.
Proof.
  intros Ha. unfold halfExtent.
  assert (Hz : abs (fsub a a) = S754_zero false).
  { destruct a as [[]|[]| |s m e]; try done. unfold abs, fsub, SFsub.
    by rewrite Z.sub_diag. }
  rewrite Hz.
  change (double_of_float (S754_zero false)) with (S754_zero false).
  destruct (dmul (double_of_float scale) lit_0_5) as [s|s| |s m e]; done.
Qed.

(** X17.  [getSphere] and scalars that are not numbers.  A comparison with
    not-a-number is false, so: when the x component of the scale is not a
    number, the uniform scale is that component whatever the others are;
    when the y (or z) component is not a number, it is passed over and the
    larger of the other two is taken.  When the three components are equal
    the uniform scale is that value. *)
Theorem uniformScale_not_a_number x y z :
  (is_nan x = true -> uniformScale (btVector3.mk x y z) = x)
  ∧ (is_nan y = true -> uniformScale (btVector3.mk x y z) = if flt x z then z else x)
  ∧ (is_nan z = true -> uniformScale (btVector3.mk x y z) = if flt x y then y else x)
  ∧ uniformScale (btVector3.mk x x x) = x.
Proof.
  unfold uniformScale. cbn [btVector3.x btVector3.y btVector3.z].
  split_and!.
  - intros Hx. by rewrite !(flt_nan_l x) by exact Hx.
  - intros Hy. by rewrite (flt_nan_r x y Hy).
  - intros Hz. destruct (flt x y); by rewrite flt_nan_r.
  - by rewrite !flt_irrefl.
Qed.

(** X18.  [update] does not clamp the elapsed time: the time step for [-e]
    milliseconds is the negated time step for [e] milliseconds. *)
Theorem seconds_negative e : e ≠ 0%Z -> seconds (- e) = SFopp (seconds e).
Proof.
  intros He. unfold seconds, btScalar_of, float_of_double, double_of_float, dmul.
  assert (H : float_of_long (- e) = SFopp (float_of_long e)).
  { unfold float_of_long. rewrite <- binary_normalize_opp. simpl. by destruct e. }
  by rewrite H, convert_opp, SFmul_opp_l, convert_opp.
Qed.

(** X19.  Shapes are never shared: asking twice for the same box creates
    two boxes at different addresses, both registered. *)
Theorem getBox_twice min max scale s :
  ∃ s',
    (let* a := getBox min max scale in
     let* b := getBox min max scale in
     ret (a, b)) s = Ok ((next s, N.succ (next s)), s')
    ∧ next s ≠ N.succ (next s)
    ∧ _shapes (self s') = _shapes (self s) ++ [next s; N.succ (next s)]
    ∧ heap s' !! N.succ (next s)
      = Some (ObjBoxShape
                (btVector3.mk
                   (halfExtent (btVector3.x scale) (Vector3.x max) (Vector3.x min))
                   (halfExtent (btVector3.y scale) (Vector3.y max) (Vector3.y min))
                   (halfExtent (btVector3.z scale) (Vector3.z max) (Vector3.z min))))
    ∧ heap s' !! next s = heap s' !! N.succ (next s).
Proof.
  eexists. rewrite (bind_Ok _ _ _ _ _ (getBox_Ok min max scale s)).
  rewrite (bind_Ok _ _ _ _ _ (getBox_Ok min max scale _)).
  split; [reflexivity|]. cbn [next heap self set__shapes _shapes].
  split; [lia|].
  split; [by rewrite <- app_assoc|].
  rewrite lookup_insert_eq. split; [reflexivity|].
  rewrite lookup_insert_ne by lia. by rewrite lookup_insert_eq.
Qed.

(** X20.  A half-extent has the sign of the scale: on every axis the
    half-extent that [getBox] computes is either not a number or carries the
    sign of the scale component, whatever [max] and [min] are; with a
    non-negative scale no half-extent is negative. *)
Theorem halfExtent_sign scale max min :
  sign_of (halfExtent scale max min) = None
  ∨ sign_of (halfExtent scale max min) = sign_of scale.
Proof.
  unfold halfExtent, btScalar_of, float_of_double.
  set (d := double_of_float (abs (fsub max min))).
  set (k := double_of_float scale).
  destruct (convert_sign prec32 emax32 (dmul (dmul k lit_0_5) d)) as [Hc|Hc]; [by left|].
  rewrite Hc. clear Hc.
  assert (Hd : sign_of d = None ∨ sign_of d = Some false).
  { unfold d, double_of_float.
    destruct (convert_sign prec64 emax64 (abs (fsub max min))) as [-> | ->]; [by left|].
    apply abs_sign. }
  assert (Hk : sign_of k = None ∨ sign_of k = sign_of scale).
  { apply convert_sign. }
  unfold dmul.
  destruct Hd as [Hd|Hd]; [left; by apply SFmul_nan_r|].
  destruct Hk as [Hk|Hk]; [left; by apply SFmul_nan_l, SFmul_nan_l|].
  destruct (sign_of scale) as [s|] eqn:Hs; [|left; by apply SFmul_nan_l, SFmul_nan_l].
  destruct (SFmul_sign prec64 emax64 k lit_0_5 s false Hk lit_0_5_sign) as [H1|H1];
    [left; by apply SFmul_nan_l|].
  destruct (SFmul_sign prec64 emax64 _ d _ false H1 Hd) as [H2|H2]; [by left|].
  right. rewrite H2. by destruct s.
Qed.

End ShapeEdgeCases.

Section ShapeEdgeRuns.
#[local] Existing Instance stub_engine.

Lemma halfExtent_degenerate_witness :
  is_zero (halfExtent (Sample.f 2) (Sample.f 3) (Sample.f 3)) = true.
Proof.
  exact (halfExtent_degenerate (Sample.f 2) (Sample.f 3) eq_refl).
Defined.

Lemma uniformScale_not_a_number_witness :
  uniformScale (btVector3.mk S754_nan (Sample.f 2) (Sample.f 3)) = S754_nan
  ∧ uniformScale (btVector3.mk (Sample.f 1) S754_nan (Sample.f 3)) = Sample.f 3
  ∧ uniformScale (btVector3.mk (Sample.f 1) (Sample.f 2) S754_nan) = Sample.f 2.
Proof.
  split_and!.
  - exact (proj1 (uniformScale_not_a_number S754_nan (Sample.f 2) (Sample.f 3)) eq_refl).
  - exact (proj1 (proj2 (uniformScale_not_a_number (Sample.f 1) S754_nan (Sample.f 3)))
             eq_refl).
  - exact (proj1 (proj2 (proj2
             (uniformScale_not_a_number (Sample.f 1) (Sample.f 2) S754_nan))) eq_refl).
Defined.

Lemma seconds_negative_witness : seconds (-16) = SFopp (seconds 16).
Proof. apply (seconds_negative 16). discriminate. Defined.

End ShapeEdgeRuns.
